(** * Rescue-dog dashboard: scoring, ranking, query construction, sanitising

    A shallow embedding of the pure core of the dashboard
    ([services/ranking_service.py], [services/query_service.py],
    [services/result_service.py]) and the properties of it that the design
    document states.

    Python values are embedded as the inductive [value]; a record is a
    dictionary from field names to values ([gmap string value]); an
    exception is an explicit [Raise] in the [result] type.  [rank_results],
    which copies dictionaries and writes into the copies, is embedded over
    an explicit store of dictionary objects so that aliasing and mutation
    are visible. *)

From Stdlib Require Import ZArith QArith String Ascii List.
From Stdlib Require Import Sorting.Permutation Sorting.Sorted.
From Stdlib Require Import Floats.SpecFloat.
From stdpp Require Import gmap strings list fin_maps sorting.

#[local] Set Warnings "-register-all,-clear-no-such-hyp".
#[local] Open Scope Z_scope.

(* ===================================================================== *)
(** * Python values, exceptions and the built-ins the services use        *)
(* ===================================================================== *)

Module Py.

(** The values a record can hold.  [VFloat] carries an IEEE-754 binary64
    datum; [VList] and [VDict] are the (unhashable) containers;
    [VObjectId] stands for the opaque, hashable identifier objects the
    document store puts under ["_id"].  Text is kept as a byte string. *)
Inductive value : Type :=
  | VNone
  | VBool (b : bool)
  | VInt (n : Z)
  | VFloat (f : spec_float)
  | VStr (s : string)
  | VList (l : list value)
  | VDict (d : gmap string value)
  | VObjectId (hex : string).

(** The exception classes that can occur in the modelled code. *)
Inductive exn : Type := TypeError | ValueError | OverflowError.

(** Outcome of a call: a returned value or a raised exception. *)
Inductive result (A : Type) : Type :=
  | Ret (a : A)
  | Raise (e : exn).
Arguments Ret {A} a.
Arguments Raise {A} e.

#[export] Instance result_ret : MRet result := @Ret.
#[export] Instance result_bind : MBind result := fun A B f m =>
  match m with
  | Ret a => f a
  | Raise e => Raise e
  end.
#[export] Instance result_fmap : FMap result := fun A B f m =>
  match m with
  | Ret a => Ret (f a)
  | Raise e => Raise e
  end.

(** binary64 parameters *)
Definition prec : Z := 53.
Definition emax : Z := 1024.

(** Truth value of an object ([bool(x)]). *)
Definition truthy (v : value) : bool :=
  match v with
  | VNone => false
  | VBool b => b
  | VInt n => negb (n =? 0)
  | VFloat f => match f with S754_zero _ => false | _ => true end
  | VStr s => match s with EmptyString => false | _ => true end
  | VList l => match l with [] => false | _ => true end
  | VDict d => negb (bool_decide (d = ∅))
  | VObjectId _ => true
  end.

(** [hash(x)] succeeds except on lists and dictionaries. *)
Definition hashable (v : value) : bool :=
  match v with
  | VList _ | VDict _ => false
  | _ => true
  end.

(** [x in s] for a set of strings [s]: hashing an unhashable object
    raises [TypeError]; a hashable object that is not a string is equal
    to no string. *)
Definition set_contains (s : gset string) (v : value) : result bool :=
  match v with
  | VStr x => Ret (bool_decide (x ∈ s))
  | VList _ | VDict _ => Raise TypeError
  | _ => Ret false
  end.

(** [x == t] for a string [t]; never raises. *)
Definition eq_str (v : value) (t : string) : bool :=
  match v with
  | VStr x => bool_decide (x = t)
  | _ => false
  end.

(** [isinstance(x, (int, float))] together with the number it denotes:
    [bool] is a subclass of [int] ([True] is [1], [False] is [0]). *)
Inductive number : Type :=
  | NInt (n : Z)
  | NFloat (f : spec_float).

Definition as_number (v : value) : option number :=
  match v with
  | VBool b => Some (NInt (if b then 1 else 0))
  | VInt n => Some (NInt n)
  | VFloat f => Some (NFloat f)
  | _ => None
  end.

(** Exact comparison of a float with an integer, as Python performs it
    (no rounding of the integer); [None] for a NaN, which is unordered.
    A finite float [S754_finite s m e] denotes [(-1)^s * m * 2^e]. *)
Definition float_compare_int (f : spec_float) (z : Z) : option comparison :=
  match f with
  | S754_nan => None
  | S754_zero _ => Some (0 ?= z)
  | S754_infinity s => Some (if s then Lt else Gt)
  | S754_finite s m e =>
      let v := if s then Z.neg m else Z.pos m in
      Some (if 0 <=? e then (v * 2 ^ e ?= z) else (v ?= z * 2 ^ (- e)))
  end.

(** [lo <= x] and [x <= hi] for an integer bound and a number [x]. *)
Definition int_le_number (lo : Z) (x : number) : bool :=
  match x with
  | NInt n => lo <=? n
  | NFloat f =>
      match float_compare_int f lo with
      | Some Gt | Some Eq => true
      | _ => false
      end
  end.

Definition number_le_int (x : number) (hi : Z) : bool :=
  match x with
  | NInt n => n <=? hi
  | NFloat f =>
      match float_compare_int f hi with
      | Some Lt | Some Eq => true
      | _ => false
      end
  end.

(** ** The built-in [float] *)

(** [float(n)] for an integer: round to nearest, ties to even;
    [OverflowError] when the rounded magnitude exceeds the largest
    finite binary64. *)
Definition float_of_int (n : Z) : result spec_float :=
  match binary_normalize prec emax n 0 false with
  | S754_infinity _ => Raise OverflowError
  | f => Ret f
  end.

Definition is_space (c : ascii) : bool :=
  let n := nat_of_ascii c in
  (Nat.eqb n 32) || ((Nat.leb 9 n) && (Nat.leb n 13)).

Definition is_digit (c : ascii) : bool :=
  let n := nat_of_ascii c in
  (Nat.leb 48 n) && (Nat.leb n 57).

Definition digit_val (c : ascii) : Z := Z.of_nat (nat_of_ascii c) - 48.

Definition lower (c : ascii) : ascii :=
  let n := nat_of_ascii c in
  if (Nat.leb 65 n) && (Nat.leb n 90) then ascii_of_nat (n + 32) else c.

Fixpoint span_digits (s : list ascii) : list ascii * list ascii :=
  match s with
  | c :: t =>
      if is_digit c then let '(d, r) := span_digits t in (c :: d, r)
      else ([], s)
  | [] => ([], [])
  end.

Definition digits_val (ds : list ascii) : Z :=
  fold_left (fun acc c => 10 * acc + digit_val c) ds 0.

Fixpoint lstrip (s : list ascii) : list ascii :=
  match s with
  | c :: t => if is_space c then lstrip t else s
  | [] => []
  end.

Definition strip (s : list ascii) : list ascii :=
  rev (lstrip (rev (lstrip s))).

(** Underscores may only stand between two digits; they are removed.
    [prev] is the character before the current one. *)
Fixpoint drop_underscores (prev : option ascii) (s : list ascii)
  : option (list ascii) :=
  match s with
  | [] =>
      match prev with
      | Some "_"%char => None
      | _ => Some []
      end
  | c :: t =>
      if Ascii.eqb c "_" then
        match prev with
        | Some p => if is_digit p then drop_underscores (Some c) t else None
        | None => None
        end
      else
        match prev with
        | Some "_"%char =>
            if is_digit c then cons c <$> drop_underscores (Some c) t
            else None
        | _ => cons c <$> drop_underscores (Some c) t
        end
  end.

Definition split_sign (s : list ascii) : bool * list ascii :=
  match s with
  | "-"%char :: t => (true, t)
  | "+"%char :: t => (false, t)
  | _ => (false, s)
  end.

(** The value [(-1)^neg * m * 10^e], correctly rounded to binary64
    (overflow gives an infinity, underflow a subnormal or a zero). *)
Definition decimal_to_float (neg : bool) (m e : Z) : spec_float :=
  match m with
  | Zpos p =>
      if 0 <=? e
      then binary_normalize prec emax
             ((if neg then Z.neg p else Z.pos p) * 10 ^ e) 0 neg
      else SFdiv prec emax (S754_finite neg p 0)
             (S754_finite false (Z.to_pos (10 ^ (- e))) 0)
  | _ => S754_zero neg
  end.

(** Decimal literal: digits with an optional point and an optional
    exponent; at least one digit in the mantissa, at least one in an
    exponent, nothing after it. *)
Definition parse_decimal (neg : bool) (s : list ascii) : option spec_float :=
  let '(ip, s1) := span_digits s in
  let '(fp, s2) :=
    match s1 with
    | "."%char :: t => span_digits t
    | _ => ([], s1)
    end in
  match ip ++ fp with
  | [] => None
  | ds =>
      let m := digits_val ds in
      let shift := Z.of_nat (length fp) in
      match s2 with
      | [] => Some (decimal_to_float neg m (- shift))
      | c :: t =>
          if Ascii.eqb (lower c) "e" then
            let '(eneg, t') := split_sign t in
            match span_digits t' with
            | ((_ :: _) as ed, []) =>
                let x := digits_val ed in
                Some (decimal_to_float neg m ((if eneg then - x else x) - shift))
            | _ => None
            end
          else None
      end
  end.

(** [float(s)] for a string made of ASCII characters: [None] stands for
    the [ValueError] of a malformed literal. *)
Definition parse_float (s : string) : option spec_float :=
  s0 ← drop_underscores None (list_ascii_of_string s);
  let '(neg, body) := split_sign (strip s0) in
  let word := string_of_list_ascii (map lower body) in
  if bool_decide (word = "inf"%string) || bool_decide (word = "infinity"%string)
  then Some (S754_infinity neg)
  else if bool_decide (word = "nan"%string) then Some S754_nan
  else parse_decimal neg body.

(** The built-in [float(x)]. *)
Definition float (v : value) : result spec_float :=
  match v with
  | VFloat f => Ret f
  | VInt n => float_of_int n
  | VBool b => float_of_int (if b then 1 else 0)
  | VStr s =>
      match parse_float s with
      | Some f => Ret f
      | None => Raise ValueError
      end
  | VNone | VList _ | VDict _ | VObjectId _ => Raise TypeError
  end.

(** [d.get(k)]: the value under [k], or [None]. *)
Definition get (d : gmap string value) (k : string) : value :=
  default VNone (d !! k).

(** [d.setdefault(k, v)], as a dictionary update. *)
Definition setdefault (k : string) (v : value) (d : gmap string value)
  : gmap string value :=
  match d !! k with
  | Some _ => d
  | None => <[k := v]> d
  end.

End Py.
Import Py.

(** A record (one shelter animal) is a Python [dict] keyed by field name. *)
Abbreviation dict := (gmap string value).

(* ===================================================================== *)
(** * services/ranking_service.py                                         *)
(* ===================================================================== *)

Module RankingService.

(** [@dataclass(frozen=True) class MatchCriteria]; every field defaults
    to [None]. *)
Record MatchCriteria : Type := {
  preferred_breeds : option (gset string);
  min_weeks : option Z;
  max_weeks : option Z;
  preferred_sex : option string
}.

(** [MatchCriteria()] *)
Definition MatchCriteria_default : MatchCriteria :=
  {| preferred_breeds := None; min_weeks := None;
     max_weeks := None; preferred_sex := None |}.

(** [@dataclass(frozen=True) class BreedScore] *)
Record BreedScore : Type := {
  breed_match : Z;
  age_match : Z;
  sex_match : Z;
  total_score : Z
}.

Module RankingAlgorithm.

Definition BREED_WEIGHT : Z := 50.
Definition AGE_WEIGHT : Z := 30.
Definition SEX_WEIGHT : Z := 20.

(** [if breed and breed in criteria.preferred_breeds]: the membership
    test is evaluated only for a truthy [breed], and raises
    [TypeError] on an unhashable one. *)
Definition _score_breed (record : dict) (criteria : MatchCriteria)
  : result Z :=
  match preferred_breeds criteria with
  | None => Ret 0
  | Some breeds =>
      let breed := get record "breed" in
      hit ← (if truthy breed then set_contains breeds breed else Ret false);
      if (hit : bool) then Ret BREED_WEIGHT else Ret 0
  end.

Definition _score_age (record : dict) (criteria : MatchCriteria) : Z :=
  match min_weeks criteria, max_weeks criteria with
  | Some lo, Some hi =>
      let age := get record "age_upon_outcome_in_weeks" in
      match as_number age with
      | None => 0
      | Some a =>
          if int_le_number lo a && number_le_int a hi
          then AGE_WEIGHT else 0
      end
  | _, _ => 0
  end.

Definition _score_sex (record : dict) (criteria : MatchCriteria) : Z :=
  match preferred_sex criteria with
  | None => 0
  | Some wanted =>
      let sex := get record "sex_upon_outcome" in
      if truthy sex && eq_str sex wanted then SEX_WEIGHT else 0
  end.

Definition score_dog (record : dict) (criteria : MatchCriteria)
  : result BreedScore :=
  breed_score ← _score_breed record criteria;
  let age_score := _score_age record criteria in
  let sex_score := _score_sex record criteria in
  let total := breed_score + age_score + sex_score in
  Ret {| breed_match := breed_score; age_match := age_score;
         sex_match := sex_score; total_score := total |}.

End RankingAlgorithm.
Import RankingAlgorithm.

Definition criteria_for_filter (filter_type : string) : MatchCriteria :=
  if bool_decide (filter_type = "water"%string) then
    {| preferred_breeds :=
         Some {[ "Labrador Retriever Mix"%string;
                 "Chesapeake Bay Retriever"%string;
                 "Newfoundland"%string ]};
       min_weeks := Some 26;
       max_weeks := Some 156;
       preferred_sex := Some "Intact Female"%string |}
  else if bool_decide (filter_type = "mountain"%string) then
    {| preferred_breeds :=
         Some {[ "German Shepherd"%string;
                 "Alaskan Malamute"%string;
                 "Old English Sheepdog"%string;
                 "Siberian Husky"%string;
                 "Rottweiler"%string ]};
       min_weeks := Some 26;
       max_weeks := Some 156;
       preferred_sex := Some "Intact Male"%string |}
  else if bool_decide (filter_type = "disaster"%string) then
    {| preferred_breeds :=
         Some {[ "Doberman Pinscher"%string;
                 "German Shepherd"%string;
                 "Golden Retriever"%string;
                 "Bloodhound"%string;
                 "Rottweiler"%string ]};
       min_weeks := Some 20;
       max_weeks := Some 300;
       preferred_sex := Some "Intact Male"%string |}
  else MatchCriteria_default.

(** ** The store of dictionary objects

    [rank_results] receives references to dictionaries, builds a new
    dictionary per record with [dict(record)] and assigns into it.  A
    [store] maps object identities to dictionary contents; a command is
    a store transformer that returns or raises.  [None] marks a
    reference to no object, which no Python execution produces. *)

Definition loc : Type := positive.
Abbreviation store := (gmap loc (gmap string value)).

Definition cmd (A : Type) : Type := store → option (result A * store).

Definition cmd_ret {A} (a : A) : cmd A := λ h, Some (Ret a, h).

Definition cmd_bind {A B} (m : cmd A) (f : A → cmd B) : cmd B := λ h,
  match m h with
  | Some (Ret a, h') => f a h'
  | Some (Raise e, h') => Some (Raise e, h')
  | None => None
  end.

(** a pure call that may raise *)
Definition lift {A} (r : result A) : cmd A := λ h, Some (r, h).

(** reading the dictionary behind a reference *)
Definition deref (l : loc) : cmd dict := λ h,
  match h !! l with
  | Some d => Some (Ret d, h)
  | None => None
  end.

(** [dict(d)]: a new object with the same items *)
Definition dict_copy (l : loc) : cmd loc := λ h,
  match h !! l with
  | Some d => let l' := fresh (dom h) in Some (Ret l', <[l' := d]> h)
  | None => None
  end.

(** [d[k] = v] *)
Definition setitem (l : loc) (k : string) (v : value) : cmd unit := λ h,
  match h !! l with
  | Some d => Some (Ret tt, <[l := <[k := v]> d]> h)
  | None => None
  end.

Notation "x ⇐ m ; k" := (cmd_bind m (λ x, k))
  (at level 20, m at level 100, k at level 200, right associativity,
   only parsing).
Notation "m ;; k" := (cmd_bind m (λ _, k))
  (at level 100, k at level 200, right associativity, only parsing).

(** The dictionary literal stored under ["score_breakdown"]. *)
Definition breakdown_dict (score : BreedScore) : value :=
  VDict (<["breed_match" := VInt (breed_match score)]>
         (<["age_match" := VInt (age_match score)]>
          (<["sex_match" := VInt (sex_match score)]> ∅))).

(** The [for record in rows] loop; [scored_records] is the list built so
    far. *)
Fixpoint score_loop (rows : list loc) (criteria : MatchCriteria)
    (scored_records : list (Z * loc)) : cmd (list (Z * loc)) :=
  match rows with
  | [] => cmd_ret scored_records
  | record :: rows' =>
      fields ⇐ deref record;
      score ⇐ lift (score_dog fields criteria);
      scored_record ⇐ dict_copy record;
      setitem scored_record "match_score" (VInt (total_score score));;
      setitem scored_record "score_breakdown" (breakdown_dict score);;
      score_loop rows' criteria
        (scored_records ++ [(total_score score, scored_record)])
  end.

(** [list.sort(key=lambda x: x[0], reverse=True)]: the stable sort into
    descending key order.  An element is inserted, coming from the left
    of the elements already placed, in front of the first one whose key
    is not larger. *)
Fixpoint insert_desc {A} (x : Z * A) (l : list (Z * A)) : list (Z * A) :=
  match l with
  | [] => [x]
  | y :: l' => if x.1 <? y.1 then y :: insert_desc x l' else x :: l
  end.

Definition sort_desc {A} (l : list (Z * A)) : list (Z * A) :=
  foldr insert_desc [] l.

Definition rank_results (rows : list loc) (criteria : MatchCriteria)
  : cmd (list loc) :=
  scored_records ⇐ score_loop rows criteria [];
  let scored_records := sort_desc scored_records in
  cmd_ret (map snd scored_records).

End RankingService.

(* ===================================================================== *)
(** * services/query_service.py                                           *)
(* ===================================================================== *)

Module QueryService.

Definition ALLOWED_FILTERS : gset string :=
  {[ "all"%string; "water"%string; "mountain"%string; "disaster"%string ]}.

Definition validate_filter_type (filter_type : string) : result string :=
  if bool_decide (filter_type ∉ ALLOWED_FILTERS)
  then Raise ValueError
  else Ret filter_type.

(** The three-clause query document of a rescue category:
    [{"$and": [{"breed": {"$in": breeds}}, {"sex_upon_outcome": sex},
               {"age_upon_outcome_in_weeks": {"$gte": lo, "$lte": hi}}]}] *)
Definition and_query (breeds : list string) (sex : string) (lo hi : Z) : dict :=
  {[ "$and"%string :=
       VList [
         VDict {[ "breed"%string :=
                    VDict {[ "$in"%string := VList (VStr <$> breeds) ]} ]};
         VDict {[ "sex_upon_outcome"%string := VStr sex ]};
         VDict {[ "age_upon_outcome_in_weeks"%string :=
                    VDict (<["$gte"%string := VInt lo]>
                           {[ "$lte"%string := VInt hi ]}) ]}
       ] ]}.

Definition build_rescue_query (filter_type : string) : result dict :=
  _ ← validate_filter_type filter_type;
  if bool_decide (filter_type = "water"%string) then
    Ret (and_query
           ["Labrador Retriever Mix"; "Chesapeake Bay Retriever";
            "Newfoundland"]%string
           "Intact Female" 26 156)
  else if bool_decide (filter_type = "mountain"%string) then
    Ret (and_query
           ["German Shepherd"; "Alaskan Malamute"; "Old English Sheepdog";
            "Siberian Husky"; "Rottweiler"]%string
           "Intact Male" 26 156)
  else if bool_decide (filter_type = "disaster"%string) then
    Ret (and_query
           ["Doberman Pinscher"; "German Shepherd"; "Golden Retriever";
            "Bloodhound"; "Rottweiler"]%string
           "Intact Male" 20 300)
  else Ret ∅.

End QueryService.

(* ===================================================================== *)
(** * Reading a query document as a structured predicate                  *)
(* ===================================================================== *)

Module Predicate.

(** A condition on one field, for the operators the service emits. *)
Inductive cond : Type :=
  | CEq (s : string)            (* {field: s} *)
  | CIn (ss : list string)      (* {field: {"$in": ss}} *)
  | CRange (lo hi : Z).         (* {field: {"$gte": lo, "$lte": hi}} *)

(** A structured predicate: the conjunction of its clauses. *)
Definition predicate : Type := list (string * cond).

Definition decode_str (v : value) : option string :=
  match v with
  | VStr s => Some s
  | _ => None
  end.

Definition decode_int (v : value) : option Z :=
  match v with
  | VInt n => Some n
  | _ => None
  end.

Definition decode_cond (v : value) : option cond :=
  match v with
  | VStr s => Some (CEq s)
  | VDict ops =>
      match map_to_list ops with
      | [(op, VList vs)] =>
          if bool_decide (op = "$in"%string)
          then CIn <$> mapM decode_str vs
          else None
      | [_; _] =>
          lo ← ops !! "$gte"%string ≫= decode_int;
          hi ← ops !! "$lte"%string ≫= decode_int;
          Some (CRange lo hi)
      | _ => None
      end
  | _ => None
  end.

(** A clause document [{field: condition}]. *)
Definition decode_clause (v : value) : option (string * cond) :=
  match v with
  | VDict d =>
      match map_to_list d with
      | [(field, c)] => pair field <$> decode_cond c
      | _ => None
      end
  | _ => None
  end.

(** The empty document is the empty conjunction; otherwise the document
    is [{"$and": [clause, ...]}]. *)
Definition decode_query (q : dict) : option predicate :=
  match map_to_list q with
  | [] => Some []
  | [(op, VList clauses)] =>
      if bool_decide (op = "$and"%string)
      then mapM decode_clause clauses
      else None
  | _ => None
  end.

(** Whether a record satisfies a clause: the field holds exactly the
    string, one of the strings, or a number in the closed range. *)
Definition holds (r : dict) (c : string * cond) : bool :=
  match c.2, r !! c.1 with
  | CEq s, Some (VStr x) => bool_decide (x = s)
  | CIn ss, Some (VStr x) => bool_decide (x ∈ ss)
  | CRange lo hi, Some (VInt n) =>
      int_le_number lo (NInt n) && number_le_int (NInt n) hi
  | CRange lo hi, Some (VFloat f) =>
      int_le_number lo (NFloat f) && number_le_int (NFloat f) hi
  | _, _ => false
  end.

Definition matches (p : predicate) (r : dict) : bool := forallb (holds r) p.

(** The conjunction that a [MatchCriteria] denotes: one clause per
    dimension that is present. *)
Definition breeds_of (p : predicate) : option (gset string) :=
  match p with
  | [("breed"%string, CIn ss); _; _] => Some (list_to_set ss)
  | _ => None
  end.

Definition sex_of (p : predicate) : option string :=
  match p with
  | [_; ("sex_upon_outcome"%string, CEq s); _] => Some s
  | _ => None
  end.

Definition age_range_of (p : predicate) : option (Z * Z) :=
  match p with
  | [_; _; ("age_upon_outcome_in_weeks"%string, CRange lo hi)] => Some (lo, hi)
  | _ => None
  end.

End Predicate.

(* ===================================================================== *)
(** * services/result_service.py                                          *)
(* ===================================================================== *)

Module ResultService.

Definition REQUIRED_FIELDS : list string :=
  ["breed"; "sex_upon_outcome"; "age_upon_outcome_in_weeks"]%string.

(** [OPTIONAL_FIELDS_WITH_DEFAULTS.items()], in insertion order. *)
Definition OPTIONAL_FIELDS_WITH_DEFAULTS : list (string * value) :=
  [("name", VStr ""); ("location_lat", VNone); ("location_long", VNone)]%string.

(** The [try] body of [sanitize_record]: the value assigned to the age
    field. *)
Definition coerce_age (age : value) : result value :=
  match age with
  | VNone => Ret VNone
  | _ => VFloat <$> float age
  end.

(** [out] is a fresh copy of [r]; each step below is one statement acting
    on it.  Only [TypeError] and [ValueError] are caught. *)
Definition sanitize_record (r : dict) : result dict :=
  let out := r in
  let out := delete "_id"%string out in
  let out := foldl (λ out k, setdefault k VNone out) out REQUIRED_FIELDS in
  let out := foldl (λ out kd, setdefault kd.1 kd.2 out) out
               OPTIONAL_FIELDS_WITH_DEFAULTS in
  let age := get out "age_upon_outcome_in_weeks" in
  match coerce_age age with
  | Ret v => Ret (<["age_upon_outcome_in_weeks"%string := v]> out)
  | Raise TypeError | Raise ValueError =>
      Ret (<["age_upon_outcome_in_weeks"%string := VNone]> out)
  | Raise e => Raise e
  end.

Definition sanitize_rows (rows : list dict) : result (list dict) :=
  mapM sanitize_record rows.

End ResultService.

(* ===================================================================== *)
(** * app.py                                                              *)
(* ===================================================================== *)

Module App.

(** The sort key of the default ordering in [update_table]:
    [lambda r: r.get("match_score", 0)]. *)
Definition match_score_key (r : dict) : value :=
  default (VInt 0) (r !! "match_score"%string).

End App.

Import RankingService RankingService.RankingAlgorithm.
Import QueryService Predicate ResultService.
Import App.

(* ===================================================================== *)
(** * Vocabulary of the properties                                        *)
(* ===================================================================== *)

(** The rational number a finite float denotes; an infinity or a NaN
    denotes none. *)
Definition float_value (f : spec_float) : option Q :=
  match f with
  | S754_zero _ => Some 0%Q
  | S754_finite s m e =>
      let v := if s then Z.neg m else Z.pos m in
      Some (if 0 <=? e then inject_Z (v * 2 ^ e)
            else Qmake v (Z.to_pos (2 ^ (- e))))
  | _ => None
  end.

Definition number_value (x : number) : option Q :=
  match x with
  | NInt n => Some (inject_Z n)
  | NFloat f => float_value f
  end.

(** [lo <= x <= hi], both ends included, read over the rationals. *)
Definition in_range (lo hi : Z) (x : number) : Prop :=
  ∃ q, number_value x = Some q ∧ (inject_Z lo <= q)%Q ∧ (q <= inject_Z hi)%Q.

(** The score with every component zero. *)
Definition zero_score : BreedScore :=
  {| breed_match := 0; age_match := 0; sex_match := 0; total_score := 0 |}.

(** A criteria whose only preferred breed is the empty string, and a
    record whose breed is the empty string. *)
Definition empty_breed_criteria : MatchCriteria :=
  {| preferred_breeds := Some {[ ""%string ]}; min_weeks := None;
     max_weeks := None; preferred_sex := None |}.

Definition empty_breed_record : dict := {[ "breed"%string := VStr "" ]}.

(** The doctest record of [score_dog]. *)
Definition labrador : dict :=
  <["breed"%string := VStr "Labrador Retriever Mix"]>
  (<["age_upon_outcome_in_weeks"%string := VInt 52]>
   {[ "sex_upon_outcome"%string := VStr "Intact Female" ]}).

Definition terrier : dict :=
  <["breed"%string := VStr "Terrier Mix"]>
  (<["age_upon_outcome_in_weeks"%string := VInt 50]>
   {[ "sex_upon_outcome"%string := VStr "Intact Male" ]}).

Definition with_age (age : value) : dict :=
  {[ "age_upon_outcome_in_weeks"%string := age ]}.

(** The dictionary [out] of [sanitize_record] once the identifier is
    dropped and the missing keys are filled in. *)
Definition fill_defaults (r : dict) : dict :=
  foldl (λ out kd, setdefault kd.1 kd.2 out)
    (foldl (λ out k, setdefault k VNone out) (delete "_id"%string r)
       REQUIRED_FIELDS)
    OPTIONAL_FIELDS_WITH_DEFAULTS.

(** The dictionary [rank_results] leaves in a copy: the fields of the
    record with the two score fields assigned. *)
Definition scored_copy (fields : dict) (score : BreedScore) : dict :=
  <["score_breakdown"%string := breakdown_dict score]>
    (<["match_score"%string := VInt (total_score score)]> fields).

(** A row that [score_dog] scores without raising. *)
Definition scorable (h : store) (c : MatchCriteria) (l : loc) : Prop :=
  ∃ fields score, h !! l = Some fields ∧ score_dog fields c = Ret score.

(** [l'] is, in [h'], the scored copy of the record that [l] denotes in
    [h]; it is an object that did not exist in [h]. *)
Definition is_scored_copy (h h' : store) (c : MatchCriteria) (l l' : loc)
  : Prop :=
  ∃ fields score,
    h !! l = Some fields ∧ score_dog fields c = Ret score ∧
    h !! l' = None ∧ h' !! l' = Some (scored_copy fields score).

(** The integer under ["match_score"] of the object at [l]. *)
Definition match_score_of (h : store) (l : loc) : option Z :=
  d ← h !! l; v ← d !! "match_score"%string; decode_int v.

(** [x] occurs in [l] at a position before an occurrence of [y]. *)
Definition before {A} (x y : A) (l : list A) : Prop :=
  ∃ l1 l2 l3, l = l1 ++ x :: l2 ++ y :: l3.

(** [x] may stand in front of [y] in a descending list: its key is not
    smaller. *)
Definition desc {A} (x y : Z * A) : Prop := y.1 ≤ x.1.

(** [h'] holds every object of [h] unchanged. *)
Definition preserves (h h' : store) : Prop :=
  ∀ l, is_Some (h !! l) → h' !! l = h !! l.

(** What a caller reads off a run: the outcome and, for each returned
    object, the value under the key [k]. *)
Definition observe (k : string) (run : option (result (list loc) * store))
  : option (result (list (option value))) :=
  match run with
  | Some (Ret out, h') => Some (Ret ((λ l, d ← h' !! l; d !! k) <$> out))
  | Some (Raise e, _) => Some (Raise e)
  | None => None
  end.

(** The three dogs of the tie-ordering test, as objects 1, 2 and 3. *)
Definition dog (breed : string) : dict :=
  <["breed"%string := VStr breed]>
  (<["age_upon_outcome_in_weeks"%string := VInt 100]>
   {[ "sex_upon_outcome"%string := VStr "Female" ]}).

Definition three_dogs : store :=
  <[1%positive := dog "Terrier"]>
  (<[2%positive := dog "Poodle"]> {[ 3%positive := dog "Collie" ]}).

(** A record that already carries a ["match_score"] field. *)
Definition ranked_before : dict :=
  <["name"%string := VStr "Buddy"]> {[ "match_score"%string := VStr "high" ]}.

(* ===================================================================== *)
(** * Properties of the built-ins                                         *)
(* ===================================================================== *)

Section Builtins.

Lemma get_Some (r : dict) k v : r !! k = Some v → get r k = v.
Proof. unfold get. by intros ->. Qed.

Lemma get_None (r : dict) k : r !! k = None → get r k = VNone.
Proof. unfold get. by intros ->. Qed.

Lemma truthy_str s : truthy (VStr s) = true ↔ s ≠ ""%string.
Proof. destruct s; simpl; split; intros; congruence. Qed.

Lemma compare_ge_cases (a b : Z) :
  match a ?= b with Gt | Eq => true | Lt => false end = true ↔ b ≤ a.
Proof. destruct (Z.compare_spec a b); split; intros; try done; lia. Qed.

Lemma compare_le_cases (a b : Z) :
  match a ?= b with Lt | Eq => true | Gt => false end = true ↔ a ≤ b.
Proof. destruct (Z.compare_spec a b); split; intros; try done; lia. Qed.

Lemma Qle_inject_l (z v : Z) (d : positive) :
  (inject_Z z <= Qmake v d)%Q ↔ z * Z.pos d ≤ v.
Proof. unfold Qle; simpl. by rewrite Z.mul_1_r. Qed.

Lemma Qle_inject_r (z v : Z) (d : positive) :
  (Qmake v d <= inject_Z z)%Q ↔ v ≤ z * Z.pos d.
Proof. unfold Qle; simpl. by rewrite Z.mul_1_r. Qed.

(** Python's mixed comparison agrees with the order of the rationals; the
    only number without a rational value above an integer is [+inf]. *)
Lemma int_le_number_true lo x :
  int_le_number lo x = true ↔
  match number_value x with
  | Some q => (inject_Z lo <= q)%Q
  | None => x = NFloat (S754_infinity false)
  end.
Proof.
  destruct x as [n|[s|[]| |s m e]];
    cbn [int_le_number number_value float_value float_compare_int].
  - rewrite <- Zle_Qle. apply Z.leb_le.
  - rewrite compare_ge_cases. change 0%Q with (inject_Z 0).
    by rewrite <- Zle_Qle.
  - split; [done|congruence].
  - done.
  - split; [done|congruence].
  - set (v := if s then Z.neg m else Z.pos m).
    destruct (0 <=? e) eqn:He.
    + rewrite compare_ge_cases. by rewrite <- Zle_Qle.
    + rewrite compare_ge_cases, Qle_inject_l.
      assert (0 < 2 ^ (- e)) by (apply Z.pow_pos_nonneg; lia).
      by rewrite Z2Pos.id by lia.
Qed.

Lemma number_le_int_true x hi :
  number_le_int x hi = true ↔
  match number_value x with
  | Some q => (q <= inject_Z hi)%Q
  | None => x = NFloat (S754_infinity true)
  end.
Proof.
  destruct x as [n|[s|[]| |s m e]];
    cbn [number_le_int number_value float_value float_compare_int].
  - rewrite <- Zle_Qle. apply Z.leb_le.
  - rewrite compare_le_cases. change 0%Q with (inject_Z 0).
    by rewrite <- Zle_Qle.
  - done.
  - split; [done|congruence].
  - split; [done|congruence].
  - set (v := if s then Z.neg m else Z.pos m).
    destruct (0 <=? e) eqn:He.
    + rewrite compare_le_cases. by rewrite <- Zle_Qle.
    + rewrite compare_le_cases, Qle_inject_r.
      assert (0 < 2 ^ (- e)) by (apply Z.pow_pos_nonneg; lia).
      by rewrite Z2Pos.id by lia.
Qed.

Lemma in_range_true lo hi x :
  int_le_number lo x && number_le_int x hi = true ↔ in_range lo hi x.
Proof.
  rewrite andb_true_iff, int_le_number_true, number_le_int_true.
  unfold in_range. destruct (number_value x) as [q|] eqn:E.
  - split; [intros []; eauto|]. by intros (q' & [= <-] & ? & ?).
  - split; [intros [-> [=]]|]. by intros (q' & [=] & _).
Qed.

Lemma in_range_int lo hi n : in_range lo hi (NInt n) ↔ lo ≤ n ≤ hi.
Proof.
  rewrite <- in_range_true. simpl. rewrite andb_true_iff, !Z.leb_le. done.
Qed.

End Builtins.

(* ===================================================================== *)
(** * Scoring                                                             *)
(* ===================================================================== *)

Section Scoring.

Implicit Types (r : dict) (c : MatchCriteria).

Lemma _score_breed_cases r c :
  _score_breed r c = Ret 0 ∨ _score_breed r c = Ret 50 ∨
  (_score_breed r c = Raise TypeError ∧ is_Some (preferred_breeds c) ∧
   truthy (get r "breed") = true ∧ hashable (get r "breed") = false).
Proof.
  unfold _score_breed.
  destruct (preferred_breeds c) as [bs|]; [|by left].
  destruct (get r "breed") as [| | | | s | l | d |] eqn:E; simpl;
    repeat case_match; try case_bool_decide; simplify_eq/=; eauto 10.
Qed.

Lemma _score_age_cases r c : _score_age r c = 0 ∨ _score_age r c = 30.
Proof. unfold _score_age. repeat case_match; auto. Qed.

Lemma _score_sex_cases r c : _score_sex r c = 0 ∨ _score_sex r c = 20.
Proof. unfold _score_sex. repeat case_match; auto. Qed.

Lemma score_dog_Ret r c s :
  score_dog r c = Ret s ↔
  ∃ b, _score_breed r c = Ret b ∧
       s = {| breed_match := b; age_match := _score_age r c;
              sex_match := _score_sex r c;
              total_score := b + _score_age r c + _score_sex r c |}.
Proof.
  unfold score_dog. destruct (_score_breed r c) as [b|e]; simpl.
  - split; [intros [= <-]; eauto|]. by intros (? & [= <-] & ->).
  - split; [done|]. by intros (? & [=] & _).
Qed.

Lemma score_dog_Raise r c e :
  score_dog r c = Raise e ↔ _score_breed r c = Raise e.
Proof.
  unfold score_dog. destruct (_score_breed r c); simpl; split; congruence.
Qed.

(** [score_dog] returns whenever the breed field can be hashed. *)
Lemma score_dog_returns r c :
  hashable (get r "breed") = true → ∃ s, score_dog r c = Ret s.
Proof.
  intros Hh. destruct (score_dog r c) as [s|e] eqn:E; [eauto|].
  apply score_dog_Raise in E.
  destruct (_score_breed_cases r c) as [?|[?|(_ & _ & _ & ?)]]; congruence.
Qed.

(** C1: the score that [score_dog] returns has a total equal to the sum of
    its three components, and that total is one of 0, 20, 30, 50, 70, 80,
    100.  The only way not to return is the [TypeError] of testing an
    unhashable, truthy breed for membership. *)
Theorem score_dog_total_is_sum_of_weights r c :
  match score_dog r c with
  | Ret s =>
      total_score s = breed_match s + age_match s + sex_match s ∧
      total_score s ∈ [0; 20; 30; 50; 70; 80; 100]
  | Raise e =>
      e = TypeError ∧ is_Some (preferred_breeds c) ∧
      truthy (get r "breed") = true ∧ hashable (get r "breed") = false
  end.
Proof.
  destruct (score_dog r c) as [s|e] eqn:E.
  - apply score_dog_Ret in E as (b & Hb & ->). simpl. split; [done|].
    destruct (_score_breed_cases r c) as [H|[H|[H _]]];
      rewrite H in Hb; simplify_eq;
      destruct (_score_age_cases r c) as [->| ->];
      destruct (_score_sex_cases r c) as [->| ->];
      simpl; rewrite !elem_of_cons; lia.
  - apply score_dog_Raise in E.
    destruct (_score_breed_cases r c) as [H|[H|(H & ? & ? & ?)]];
      rewrite H in E; by simplify_eq.
Qed.

(** Every one of the seven totals is attained. *)
Lemma score_dog_totals_attained t :
  t ∈ [0; 20; 30; 50; 70; 80; 100] →
  ∃ r c s, score_dog r c = Ret s ∧ total_score s = t.
Proof.
  set (c := criteria_for_filter "water").
  set (b := λ d : dict, <["breed"%string := VStr "Newfoundland"]> d).
  set (a := λ d : dict, <["age_upon_outcome_in_weeks"%string := VInt 26]> d).
  set (x := λ d : dict, <["sex_upon_outcome"%string := VStr "Intact Female"]> d).
  rewrite !elem_of_cons, elem_of_nil.
  set (sc := λ b a x, {| breed_match := b; age_match := a; sex_match := x;
                         total_score := b + a + x |}).
  intros [->|[->|[->|[->|[->|[->|[->|[]]]]]]]].
  - exists ∅, c, (sc 0 0 0); split; [vm_compute; reflexivity|done].
  - exists (x ∅), c, (sc 0 0 20); split; [vm_compute; reflexivity|done].
  - exists (a ∅), c, (sc 0 30 0); split; [vm_compute; reflexivity|done].
  - exists (b ∅), c, (sc 50 0 0); split; [vm_compute; reflexivity|done].
  - exists (b (x ∅)), c, (sc 50 0 20); split; [vm_compute; reflexivity|done].
  - exists (b (a ∅)), c, (sc 50 30 0); split; [vm_compute; reflexivity|done].
  - exists (b (a (x ∅))), c, (sc 50 30 20);
      split; [vm_compute; reflexivity|done].
Qed.

End Scoring.

Section ScoringRules.

Implicit Types (r : dict) (c : MatchCriteria).

Lemma _score_age_30 r c :
  _score_age r c = 30 ↔
  ∃ lo hi age x,
    min_weeks c = Some lo ∧ max_weeks c = Some hi ∧
    r !! "age_upon_outcome_in_weeks" = Some age ∧
    as_number age = Some x ∧ in_range lo hi x.
Proof.
  unfold _score_age, get.
  destruct (min_weeks c) as [lo|], (max_weeks c) as [hi|];
    try (split; [done|]; intros (? & ? & ? & ? & ? & ? & _); done).
  destruct (r !! "age_upon_outcome_in_weeks") as [age|] eqn:Hage; simpl.
  - destruct (as_number age) as [x|] eqn:Hx.
    + destruct (int_le_number lo x && number_le_int x hi) eqn:Hin.
      * apply in_range_true in Hin. split; [|done]. intros _.
        by exists lo, hi, age, x.
      * split; [done|]. intros (? & ? & ? & ? & ? & ? & ? & ? & Hr).
        simplify_eq. apply in_range_true in Hr. congruence.
    + split; [done|]. intros (? & ? & ? & ? & ? & ? & ? & ? & Hr).
      simplify_eq.
  - split; [done|]. intros (? & ? & ? & ? & ? & ? & ? & ? & Hr). simplify_eq.
Qed.

Lemma _score_age_int r c lo hi n :
  min_weeks c = Some lo → max_weeks c = Some hi →
  r !! "age_upon_outcome_in_weeks" = Some (VInt n) →
  _score_age r c = if bool_decide (lo ≤ n ≤ hi) then 30 else 0.
Proof.
  intros Hlo Hhi Hage. case_bool_decide as Hn.
  - apply _score_age_30. exists lo, hi, (VInt n), (NInt n).
    by rewrite in_range_int.
  - destruct (_score_age_cases r c) as [|H30]; [done|].
    apply _score_age_30 in H30 as (? & ? & ? & ? & ? & ? & ? & ? & Hr).
    simplify_eq/=. by apply in_range_int in Hr.
Qed.

(** C2: the age component is 30 exactly when both bounds are present, the
    age field is present and holds a number (an [int], of which [bool] is
    a subtype, or a [float]), and that number lies in the closed range.
    An age on either bound of a non-empty range scores 30; an age one
    below the minimum or one above the maximum scores 0; text scores 0. *)
Theorem score_age_inclusive_range r c :
  (_score_age r c = 30 ↔
     ∃ lo hi age x,
       min_weeks c = Some lo ∧ max_weeks c = Some hi ∧
       r !! "age_upon_outcome_in_weeks" = Some age ∧
       as_number age = Some x ∧ in_range lo hi x) ∧
  (_score_age r c = 30 ∨ _score_age r c = 0) ∧
  (∀ s, score_dog r c = Ret s → age_match s = _score_age r c) ∧
  (∀ lo hi n,
     min_weeks c = Some lo → max_weeks c = Some hi →
     r !! "age_upon_outcome_in_weeks" = Some (VInt n) →
     (lo ≤ hi → n = lo ∨ n = hi → _score_age r c = 30) ∧
     (n = lo - 1 ∨ n = hi + 1 → _score_age r c = 0)) ∧
  (∀ t, r !! "age_upon_outcome_in_weeks" = Some (VStr t) →
        _score_age r c = 0).
Proof.
  split; [apply _score_age_30|].
  split; [destruct (_score_age_cases r c); auto|].
  split.
  { intros s (b & _ & ->)%score_dog_Ret. done. }
  split.
  - intros lo hi n Hlo Hhi Hage.
    rewrite (_score_age_int r c lo hi n) by done.
    split; intros; case_bool_decide; try done; lia.
  - intros t Ht. destruct (_score_age_cases r c) as [|H30]; [done|].
    apply _score_age_30 in H30 as (? & ? & ? & ? & ? & ? & ? & ? & _).
    simplify_eq/=.
Qed.

Lemma score_age_inclusive_range_witness :
  _score_age (with_age (VInt 26)) (criteria_for_filter "water") = 30 ∧
  _score_age (with_age (VInt 25)) (criteria_for_filter "water") = 0.
Proof.
  split.
  - refine (proj1 (proj1 (proj2 (proj2 (proj2
      (score_age_inclusive_range (with_age (VInt 26))
         (criteria_for_filter "water"))))) 26 156 26 _ _ _) _ _);
      [reflexivity | reflexivity | reflexivity | lia | lia].
  - refine (proj2 (proj1 (proj2 (proj2 (proj2
      (score_age_inclusive_range (with_age (VInt 25))
         (criteria_for_filter "water"))))) 26 156 25 _ _ _) _);
      [reflexivity | reflexivity | reflexivity | lia].
Defined.

Lemma _score_breed_50 r c :
  _score_breed r c = Ret 50 ↔
  ∃ breeds b,
    preferred_breeds c = Some breeds ∧ r !! "breed" = Some (VStr b) ∧
    b ≠ ""%string ∧ b ∈ breeds.
Proof.
  unfold _score_breed, get.
  destruct (preferred_breeds c) as [breeds|];
    [|split; [done|]; by intros (? & ? & ? & _)].
  destruct (r !! "breed") as [[| | | | b | | |]|] eqn:Hb; simpl;
    try (split; [repeat case_match; done|];
         intros (? & ? & ? & ? & _); simplify_eq).
  destruct b as [|a b]; simpl.
  - split; [done|]. intros (? & ? & ? & ? & ? & _). simplify_eq.
  - case_bool_decide as Hin; simpl.
    + split; [|done]. intros _. by exists breeds, (String a b).
    + split; [done|]. intros (? & ? & ? & ? & ? & ?). simplify_eq.
Qed.

Lemma _score_sex_20 r c :
  _score_sex r c = 20 ↔
  ∃ wanted,
    preferred_sex c = Some wanted ∧
    r !! "sex_upon_outcome" = Some (VStr wanted) ∧ wanted ≠ ""%string.
Proof.
  unfold _score_sex, get.
  destruct (preferred_sex c) as [wanted|];
    [|split; [done|]; by intros (? & ? & _)].
  destruct (r !! "sex_upon_outcome") as [[| | | | s | | |]|] eqn:Hs; simpl;
    rewrite ?andb_false_r;
    try (split; [done|]; intros (? & ? & ? & _); simplify_eq).
  destruct s as [|a s]; simpl.
  - split; [done|]. intros (? & ? & ? & ?). simplify_eq.
  - case_bool_decide as Heq; simpl.
    + split; [|done]. intros _. exists wanted. by subst.
    + split; [done|]. intros (? & ? & ? & ?). simplify_eq.
Qed.

(** C4, as the design states it, for the breed: 50 exactly when the
    preferred breeds are present, the breed field is present and the breed
    is one of them.  It fails where the breed is the empty string, which
    the truthiness guard [if breed and ...] rejects before the membership
    test. *)
Lemma empty_breed_is_not_scored :
  ¬ (_score_breed empty_breed_record empty_breed_criteria = Ret 50 ↔
     ∃ breeds b,
       preferred_breeds empty_breed_criteria = Some breeds ∧
       empty_breed_record !! "breed" = Some (VStr b) ∧ b ∈ breeds).
Proof.
  intros [_ H].
  assert (_score_breed empty_breed_record empty_breed_criteria = Ret 50)
    as Hs; [|vm_compute in Hs; discriminate].
  apply H. exists {[ ""%string ]}, ""%string.
  split; [done|]. split; [done|]. set_solver.
Qed.

(** C4, amended: the breed component is 50 exactly when the preferred
    breeds are present and the breed field holds a non-empty string that
    is one of them; the sex component is 20 exactly when the preferred sex
    is present and the sex field holds that very string, non-empty.  An
    absent dimension scores 0 whatever the record holds.  Strings are
    compared character by character. *)
Theorem score_breed_sex_exact_match r c :
  (_score_breed r c = Ret 50 ↔
     ∃ breeds b,
       preferred_breeds c = Some breeds ∧ r !! "breed" = Some (VStr b) ∧
       b ≠ ""%string ∧ b ∈ breeds) ∧
  (_score_sex r c = 20 ↔
     ∃ wanted,
       preferred_sex c = Some wanted ∧
       r !! "sex_upon_outcome" = Some (VStr wanted) ∧ wanted ≠ ""%string) ∧
  (preferred_breeds c = None → _score_breed r c = Ret 0) ∧
  (preferred_sex c = None → _score_sex r c = 0) ∧
  (∀ s, score_dog r c = Ret s →
        _score_breed r c = Ret (breed_match s) ∧
        sex_match s = _score_sex r c).
Proof.
  split; [apply _score_breed_50|]. split; [apply _score_sex_20|].
  split; [|split].
  - unfold _score_breed. by intros ->.
  - unfold _score_sex. by intros ->.
  - by intros s (b & Hb & ->)%score_dog_Ret.
Qed.

Lemma score_breed_sex_exact_match_witness :
  _score_breed labrador MatchCriteria_default = Ret 0 ∧
  _score_sex labrador MatchCriteria_default = 0.
Proof.
  split.
  - exact (proj1 (proj2 (proj2
      (score_breed_sex_exact_match labrador MatchCriteria_default)))
      eq_refl).
  - exact (proj1 (proj2 (proj2 (proj2
      (score_breed_sex_exact_match labrador MatchCriteria_default))))
      eq_refl).
Defined.

(** Case matters: a lower-case breed or sex earns nothing. *)
Example score_is_case_sensitive :
  score_dog
    (<["breed"%string := VStr "labrador retriever mix"]>
     {[ "sex_upon_outcome"%string := VStr "intact female" ]})
    (criteria_for_filter "water") = Ret zero_score.
Proof. vm_compute. reflexivity. Qed.

Example score_dog_labrador :
  score_dog labrador (criteria_for_filter "water") =
  Ret {| breed_match := 50; age_match := 30; sex_match := 20;
         total_score := 100 |}.
Proof. vm_compute. reflexivity. Qed.

Example score_dog_terrier :
  score_dog terrier (criteria_for_filter "water") =
  Ret {| breed_match := 0; age_match := 30; sex_match := 0;
         total_score := 30 |}.
Proof. vm_compute. reflexivity. Qed.

Lemma score_dog_default r : score_dog r MatchCriteria_default = Ret zero_score.
Proof. reflexivity. Qed.

(** C10: [criteria_for_filter] validates nothing.  Any string other than
    ["water"], ["mountain"] and ["disaster"] yields the empty criteria,
    under which every record scores 0 on every component; this includes
    the strings ["WATER"] and [" water"], which [validate_filter_type]
    rejects. *)
Theorem criteria_for_filter_unvalidated (filter_type : string) :
  filter_type ≠ "water"%string → filter_type ≠ "mountain"%string →
  filter_type ≠ "disaster"%string →
  criteria_for_filter filter_type = MatchCriteria_default ∧
  (∀ r, score_dog r (criteria_for_filter filter_type) = Ret zero_score) ∧
  validate_filter_type "WATER" = Raise ValueError ∧
  validate_filter_type " water" = Raise ValueError.
Proof.
  intros Hw Hm Hd.
  assert (criteria_for_filter filter_type = MatchCriteria_default) as ->.
  { unfold criteria_for_filter. by rewrite !bool_decide_eq_false_2. }
  split; [done|]. split; [apply score_dog_default|].
  split; vm_compute; reflexivity.
Qed.

Lemma criteria_for_filter_unvalidated_witness :
  criteria_for_filter "WATER" = MatchCriteria_default ∧
  criteria_for_filter " water" = MatchCriteria_default ∧
  score_dog labrador (criteria_for_filter "WATER") = Ret zero_score.
Proof.
  assert (H1 := criteria_for_filter_unvalidated "WATER"
                  ltac:(discriminate) ltac:(discriminate) ltac:(discriminate)).
  assert (H2 := criteria_for_filter_unvalidated " water"
                  ltac:(discriminate) ltac:(discriminate) ltac:(discriminate)).
  split; [exact (proj1 H1)|]. split; [exact (proj1 H2)|].
  exact (proj1 (proj2 H1) labrador).
Defined.

End ScoringRules.

(* ===================================================================== *)
(** * Validation and query construction                                   *)
(* ===================================================================== *)

Section Queries.

Lemma ALLOWED_FILTERS_spec (s : string) :
  s ∈ ALLOWED_FILTERS ↔
  s = "all"%string ∨ s = "water"%string ∨ s = "mountain"%string ∨
  s = "disaster"%string.
Proof.
  unfold ALLOWED_FILTERS.
  rewrite !elem_of_union, !elem_of_singleton. tauto.
Qed.

(** C6: [validate_filter_type] raises [ValueError] exactly on the strings
    that are not one of ["all"], ["water"], ["mountain"], ["disaster"],
    compared as they stand (no case folding, no trimming), and raises
    nothing else; a valid string is returned unchanged. *)
Theorem validate_filter_type_exact (value : string) :
  let valid := value = "all"%string ∨ value = "water"%string ∨
               value = "mountain"%string ∨ value = "disaster"%string in
  (validate_filter_type value = Raise ValueError ↔ ¬ valid) ∧
  (validate_filter_type value = Ret value ↔ valid) ∧
  (validate_filter_type value = Ret value ∨
   validate_filter_type value = Raise ValueError) ∧
  validate_filter_type "WATER" = Raise ValueError ∧
  validate_filter_type " water" = Raise ValueError.
Proof.
  intros valid. unfold validate_filter_type.
  assert (value ∈ ALLOWED_FILTERS ↔ valid) as Hv
    by apply ALLOWED_FILTERS_spec.
  repeat split; try (vm_compute; reflexivity);
    case_bool_decide; try done; intros; try tauto; auto.
Qed.

Lemma validate_filter_type_exact_witness :
  validate_filter_type "water" = Ret "water"%string ∧
  validate_filter_type "Water" = Raise ValueError.
Proof.
  split.
  - apply (proj2 (proj1 (proj2 (validate_filter_type_exact "water")))).
    right; left; reflexivity.
  - apply (proj2 (proj1 (validate_filter_type_exact "Water"))).
    intros [H|[H|[H|H]]]; discriminate H.
Defined.

Lemma matches_nil (r : dict) : matches [] r = true.
Proof. reflexivity. Qed.

(** C5: for ["water"], ["mountain"] and ["disaster"] the query document
    reads as the conjunction of three clauses, breed in a list, sex equal
    to a string, age in a closed range, and the breed set, the sex and
    the two bounds are those of the criteria of the same category.  For
    ["all"] the document is empty, the empty conjunction, which every
    record satisfies, and the criteria has its four fields absent. *)
Theorem query_agrees_with_criteria :
  (∀ filter_type : string,
     filter_type ∈ ["water"; "mountain"; "disaster"]%string →
     ∃ q breeds sex lo hi,
       build_rescue_query filter_type = Ret q ∧
       q = and_query breeds sex lo hi ∧
       decode_query q =
         Some [("breed"%string, CIn breeds);
               ("sex_upon_outcome"%string, CEq sex);
               ("age_upon_outcome_in_weeks"%string, CRange lo hi)] ∧
       criteria_for_filter filter_type =
         {| preferred_breeds := Some (list_to_set breeds);
            min_weeks := Some lo; max_weeks := Some hi;
            preferred_sex := Some sex |}) ∧
  build_rescue_query "all" = Ret ∅ ∧
  decode_query ∅ = Some [] ∧
  (∀ r, matches [] r = true) ∧
  criteria_for_filter "all" = MatchCriteria_default.
Proof.
  split; [|repeat split].
  intros filter_type.
  rewrite !elem_of_cons, elem_of_nil.
  intros [->|[->|[->|[]]]].
  - exists (and_query
              ["Labrador Retriever Mix"; "Chesapeake Bay Retriever";
               "Newfoundland"]%string "Intact Female" 26 156).
    eexists _, _, _, _. split; [reflexivity|]. split; [reflexivity|].
    split; [vm_compute; reflexivity|].
    unfold criteria_for_filter; simpl. do 2 f_equal; set_solver.
  - exists (and_query
              ["German Shepherd"; "Alaskan Malamute"; "Old English Sheepdog";
               "Siberian Husky"; "Rottweiler"]%string "Intact Male" 26 156).
    eexists _, _, _, _. split; [reflexivity|]. split; [reflexivity|].
    split; [vm_compute; reflexivity|].
    unfold criteria_for_filter; simpl. do 2 f_equal; set_solver.
  - exists (and_query
              ["Doberman Pinscher"; "German Shepherd"; "Golden Retriever";
               "Bloodhound"; "Rottweiler"]%string "Intact Male" 20 300).
    eexists _, _, _, _. split; [reflexivity|]. split; [reflexivity|].
    split; [vm_compute; reflexivity|].
    unfold criteria_for_filter; simpl. do 2 f_equal; set_solver.
Qed.

Lemma query_agrees_with_criteria_witness :
  ∃ q breeds sex lo hi,
    build_rescue_query "disaster" = Ret q ∧
    q = and_query breeds sex lo hi ∧
    decode_query q =
      Some [("breed"%string, CIn breeds);
            ("sex_upon_outcome"%string, CEq sex);
            ("age_upon_outcome_in_weeks"%string, CRange lo hi)] ∧
    criteria_for_filter "disaster" =
      {| preferred_breeds := Some (list_to_set breeds);
         min_weeks := Some lo; max_weeks := Some hi;
         preferred_sex := Some sex |}.
Proof.
  apply (proj1 query_agrees_with_criteria "disaster").
  do 2 apply list_elem_of_further. apply list_elem_of_here.
Defined.

End Queries.

(* ===================================================================== *)
(** * Sanitising                                                          *)
(* ===================================================================== *)

Section Sanitising.

Implicit Types (r out : dict) (k : string) (v : value).

#[local] Arguments float_of_int : simpl never.
#[local] Arguments parse_float : simpl never.

Lemma float_of_int_raises n e : float_of_int n = Raise e → e = OverflowError.
Proof.
  unfold float_of_int. destruct (binary_normalize _ _ _ _ _); congruence.
Qed.

Lemma float_of_bool (b : bool) : ∃ f, float_of_int (if b then 1 else 0) = Ret f.
Proof. destruct b; eexists; vm_compute; reflexivity. Qed.

Lemma lookup_setdefault k v r k' :
  setdefault k v r !! k' =
  match r !! k' with
  | Some x => Some x
  | None => if decide (k = k') then Some v else None
  end.
Proof.
  unfold setdefault. destruct (r !! k) as [x|] eqn:Hk.
  - destruct (r !! k') eqn:Hk'; [done|]. case_decide; [simplify_eq|done].
  - rewrite lookup_insert. case_decide; subst.
    + by rewrite Hk.
    + by destruct (r !! k').
Qed.

Lemma setdefault_present k v r : is_Some (r !! k) → setdefault k v r = r.
Proof. unfold setdefault. by intros [x ->]. Qed.

Lemma sanitize_record_unfold r :
  sanitize_record r =
  match coerce_age (get (fill_defaults r) "age_upon_outcome_in_weeks") with
  | Ret v => Ret (<["age_upon_outcome_in_weeks"%string := v]> (fill_defaults r))
  | Raise OverflowError => Raise OverflowError
  | Raise _ =>
      Ret (<["age_upon_outcome_in_weeks"%string := VNone]> (fill_defaults r))
  end.
Proof.
  unfold sanitize_record, fill_defaults.
  destruct (coerce_age _) as [v|[]]; reflexivity.
Qed.

(** After the [setdefault]s the age key holds what the record held, or
    [None]. *)
Lemma fill_defaults_age r :
  fill_defaults r !! "age_upon_outcome_in_weeks" =
  Some (get r "age_upon_outcome_in_weeks").
Proof.
  unfold fill_defaults, get. simpl.
  rewrite !lookup_setdefault, lookup_delete_ne by done.
  destruct (r !! "age_upon_outcome_in_weeks"); done.
Qed.

Lemma fill_defaults_lookup r k :
  fill_defaults r !! k =
  if decide (k = "_id"%string) then None
  else match r !! k with
       | Some x => Some x
       | None =>
           if decide (k ∈ REQUIRED_FIELDS) then Some VNone
           else if decide (k = "name"%string) then Some (VStr "")
           else if decide (k = "location_lat"%string) then Some VNone
           else if decide (k = "location_long"%string) then Some VNone
           else None
       end.
Proof.
  unfold fill_defaults, REQUIRED_FIELDS. simpl.
  rewrite !lookup_setdefault. rewrite lookup_delete.
  case_decide as Hid; [subst; by repeat case_decide|].
  destruct (decide (k = "_id"%string)) as [->|_]; [done|].
  destruct (r !! k) as [x|]; [done|].
  repeat case_decide; subst; try done;
    rewrite ?elem_of_cons, ?elem_of_nil in *; naive_solver.
Qed.

Lemma fill_defaults_idem r v :
  fill_defaults (<["age_upon_outcome_in_weeks"%string := v]> (fill_defaults r))
  = <["age_upon_outcome_in_weeks"%string := v]> (fill_defaults r).
Proof.
  apply map_eq. intros k. rewrite fill_defaults_lookup.
  destruct (decide (k = "age_upon_outcome_in_weeks"%string)) as [->|Hk].
  - rewrite decide_False by done. by rewrite lookup_insert_eq.
  - rewrite lookup_insert_ne by done. rewrite fill_defaults_lookup.
    case_decide; [done|]. destruct (r !! k); [done|].
    repeat case_decide; done.
Qed.

Lemma float_float f : float (VFloat f) = Ret f.
Proof. reflexivity. Qed.

(** What [float] can raise. *)
Lemma float_raises v e :
  float v = Raise e → e = TypeError ∨ e = ValueError ∨ e = OverflowError.
Proof.
  destruct v as [|b|n| |s| | |]; simpl; try (intros [= <-]; auto).
  - destruct (float_of_bool b) as [f ->]. done.
  - intros ->%float_of_int_raises. auto.
  - destruct (parse_float s); intros [= <-]; auto.
Qed.

(** The overflow is the only way out of [sanitize_record] by an
    exception, and it needs an integer age too large for a float. *)
Lemma sanitize_record_raises r e :
  sanitize_record r = Raise e ↔
  e = OverflowError ∧
  ∃ n, r !! "age_upon_outcome_in_weeks" = Some (VInt n) ∧
       float_of_int n = Raise OverflowError.
Proof.
  rewrite sanitize_record_unfold. unfold get at 1.
  rewrite fill_defaults_age. simpl. unfold get.
  destruct (r !! "age_upon_outcome_in_weeks") as [[|b|n|f|s| | |]|] eqn:Hr;
    simpl; try (split; [done|]; intros (_ & ? & ? & _); simplify_eq).
  - destruct (float_of_bool b) as [f ->]. simpl. split; [done|].
    intros (_ & ? & ? & _); simplify_eq.
  - destruct (float_of_int n) as [f|e'] eqn:Hf; simpl.
    + split; [done|]. intros (_ & ? & [= <-] & ?); congruence.
    + apply float_of_int_raises in Hf as Hf'. subst e'.
      split; [intros [= <-]; eauto|]. by intros [-> _].
  - destruct (parse_float s); simpl; split; try done;
      intros (_ & ? & ? & _); simplify_eq.
Qed.

(** What [sanitize_record] leaves in the age field when it returns. *)
Lemma sanitize_record_age r out :
  sanitize_record r = Ret out →
  out !! "age_upon_outcome_in_weeks" =
    Some match get r "age_upon_outcome_in_weeks" with
         | VNone => VNone
         | age => match float age with
                  | Ret f => VFloat f
                  | Raise _ => VNone
                  end
         end.
Proof.
  rewrite sanitize_record_unfold. unfold get at 1.
  rewrite fill_defaults_age. simpl.
  destruct (get r "age_upon_outcome_in_weeks") as [|b|n|f|s|l|d|h]; simpl;
    try (intros [= <-]; by rewrite lookup_insert_eq).
  - destruct (float_of_int _) as [f|[]]; simpl; intros [= <-];
      by rewrite lookup_insert_eq.
  - destruct (float_of_int _) as [f|[]]; simpl; intros [= <-];
      by rewrite lookup_insert_eq.
  - destruct (parse_float s); simpl; intros [= <-];
      by rewrite lookup_insert_eq.
Qed.

Lemma sanitize_record_age_shape r out :
  sanitize_record r = Ret out →
  out !! "age_upon_outcome_in_weeks" = Some VNone ∨
  ∃ f, out !! "age_upon_outcome_in_weeks" = Some (VFloat f).
Proof.
  intros H. rewrite (sanitize_record_age r out H).
  destruct (get r _); auto; destruct (float _); eauto.
Qed.

Example sanitize_record_text_number :
  (sanitize_record (with_age (VStr "12")) ≫=
     λ out, Ret (out !! "age_upon_outcome_in_weeks")) =
  Ret (Some (VFloat (S754_finite false 6755399441055744 (-49)))) ∧
  (∃ q, float_value (S754_finite false 6755399441055744 (-49)) = Some q ∧
        (q == 12 # 1)%Q).
Proof.
  split; [vm_compute; reflexivity|].
  eexists. split; [reflexivity|]. vm_compute. reflexivity.
Qed.

Example sanitize_record_text_other :
  (sanitize_record (with_age (VStr "bad")) ≫=
     λ out, Ret (out !! "age_upon_outcome_in_weeks")) = Ret (Some VNone).
Proof. vm_compute. reflexivity. Qed.

(** C7: [sanitize_record] lets an exception escape.  [float] of an
    integer beyond the binary64 range raises [OverflowError], which the
    handler for [TypeError] and [ValueError] does not catch; the record
    whose age is [2**1024] is such an input. *)
Theorem sanitize_record_overflow_escapes :
  sanitize_record (with_age (VInt (2 ^ 1024))) = Raise OverflowError.
Proof. vm_compute. reflexivity. Qed.

(** C8: sanitising twice is sanitising once, exception included. *)
Theorem sanitize_record_idempotent r :
  sanitize_record r ≫= sanitize_record = sanitize_record r.
Proof.
  destruct (sanitize_record r) as [out|e] eqn:Hr; [|done]. simpl.
  pose proof (sanitize_record_age_shape r out Hr) as Hshape.
  rewrite sanitize_record_unfold in Hr.
  assert (∃ v, out = <["age_upon_outcome_in_weeks"%string := v]>
                       (fill_defaults r)) as [v ->].
  { destruct (coerce_age _) as [v|[]]; simplify_eq; eauto. }
  rewrite sanitize_record_unfold, fill_defaults_idem.
  unfold get. rewrite lookup_insert_eq. simpl.
  rewrite lookup_insert_eq in Hshape.
  destruct Hshape as [[= ->]|[f [= ->]]]; simpl;
    by rewrite insert_insert_eq.
Qed.

End Sanitising.

(* ===================================================================== *)
(** * The stable descending sort                                          *)
(* ===================================================================== *)

Section Sorting.

Context {A : Type}.
Implicit Types (x y : Z * A) (l : list (Z * A)) (k : Z).

Lemma insert_desc_Permutation x l : insert_desc x l ≡ₚ x :: l.
Proof.
  induction l as [|y l IH]; simpl; [done|].
  destruct (x.1 <? y.1); [|done].
  rewrite IH. apply Permutation_swap.
Qed.

Lemma sort_desc_Permutation l : sort_desc l ≡ₚ l.
Proof.
  induction l as [|x l IH]; simpl; [done|].
  unfold sort_desc in *. simpl. by rewrite insert_desc_Permutation, IH.
Qed.

Lemma insert_desc_sorted x l :
  StronglySorted desc l → StronglySorted desc (insert_desc x l).
Proof.
  induction 1 as [|y l Hl IH Hy]; simpl.
  - repeat constructor.
  - destruct (x.1 <? y.1) eqn:Hxy.
    + apply Z.ltb_lt in Hxy. constructor; [done|].
      rewrite insert_desc_Permutation. constructor; [unfold desc; lia|done].
    + apply Z.ltb_ge in Hxy. constructor; [by constructor|].
      constructor; [done|].
      eapply Forall_impl; [exact Hy|]. unfold desc. intros; simpl in *. lia.
Qed.

Lemma sort_desc_sorted l : StronglySorted desc (sort_desc l).
Proof.
  induction l as [|x l IH]; [constructor|].
  by apply insert_desc_sorted.
Qed.

(** Among the elements of one key, insertion puts the new one first and
    leaves the others as they were. *)
Lemma filter_insert_desc k x l :
  filter (λ p, p.1 = k) (insert_desc x l) =
  filter (λ p, p.1 = k) (x :: l).
Proof.
  induction l as [|y l IH]; simpl; [done|].
  destruct (x.1 <? y.1) eqn:Hxy; [|done].
  apply Z.ltb_lt in Hxy.
  rewrite !filter_cons in *.
  destruct (decide (y.1 = k)) as [Hy|Hy], (decide (x.1 = k)) as [Hx|Hx];
    try lia; by rewrite IH.
Qed.

Lemma filter_sort_desc k l :
  filter (λ p, p.1 = k) (sort_desc l) = filter (λ p, p.1 = k) l.
Proof.
  induction l as [|x l IH]; [done|].
  change (sort_desc (x :: l)) with (insert_desc x (sort_desc l)).
  rewrite filter_insert_desc, !filter_cons, IH. done.
Qed.

End Sorting.

Section Before.

Context {A : Type}.
Implicit Types (x y : A) (l m : list A).

Lemma before_sorted (R : A → A → Prop) x y l :
  StronglySorted R l → before x y l → R x y.
Proof.
  intros Hs (l1 & l2 & l3 & ->).
  apply StronglySorted_app_1_r in Hs.
  apply StronglySorted_cons in Hs as [Hall _].
  rewrite Forall_app, Forall_cons in Hall. tauto.
Qed.

Lemma filter_cons_inv (P : A → Prop) `{!∀ x, Decision (P x)} l x m :
  filter P l = x :: m →
  ∃ l1 l2, l = l1 ++ x :: l2 ∧ filter P l1 = [] ∧ filter P l2 = m ∧ P x.
Proof.
  induction l as [|z l IH]; [done|].
  rewrite filter_cons. destruct (decide (P z)) as [Hz|Hz].
  - intros [= -> <-]. by exists [], l.
  - intros (l1 & l2 & -> & H1 & H2 & Hx)%IH.
    exists (z :: l1), l2. rewrite filter_cons, decide_False by done. done.
Qed.

Lemma filter_app_cons_inv (P : A → Prop) `{!∀ x, Decision (P x)} l m1 x m2 :
  filter P l = m1 ++ x :: m2 →
  ∃ l1 l2, l = l1 ++ x :: l2 ∧ filter P l1 = m1 ∧ filter P l2 = m2 ∧ P x.
Proof.
  revert l. induction m1 as [|z m1 IH]; intros l; simpl.
  - intros (l1 & l2 & -> & H1 & H2 & Hx)%filter_cons_inv. by exists l1, l2.
  - intros (l1 & l2 & -> & H1 & H2 & Hz)%filter_cons_inv.
    apply IH in H2 as (l3 & l4 & -> & H3 & H4 & Hx).
    exists (l1 ++ z :: l3), l4. split; [by rewrite <- app_assoc|].
    rewrite filter_app, filter_cons, decide_True, H1, H3 by done. done.
Qed.

Lemma before_filter (P : A → Prop) `{!∀ x, Decision (P x)} x y l :
  before x y (filter P l) ↔ before x y l ∧ P x ∧ P y.
Proof.
  split.
  - intros (m1 & m2 & m3 & Hm).
    apply filter_app_cons_inv in Hm as (l1 & l' & -> & _ & Hm & Hx).
    apply filter_app_cons_inv in Hm as (l2 & l3 & -> & _ & _ & Hy).
    split; [|done]. by exists l1, l2, l3.
  - intros [(l1 & l2 & l3 & ->) [Hx Hy]].
    exists (filter P l1), (filter P l2), (filter P l3).
    rewrite filter_app, filter_cons, decide_True by done.
    rewrite filter_app, filter_cons, decide_True by done. done.
Qed.

Lemma before_fmap {B} (f : A → B) x y l :
  before x y l → before (f x) (f y) (f <$> l).
Proof.
  intros (l1 & l2 & l3 & ->). exists (f <$> l1), (f <$> l2), (f <$> l3).
  by rewrite fmap_app, fmap_cons, fmap_app, fmap_cons.
Qed.

Lemma before_fmap_inv {B} (f : A → B) (a b : B) l :
  before a b (f <$> l) →
  ∃ x y, a = f x ∧ b = f y ∧ before x y l.
Proof.
  intros (m1 & m2 & m3 & Hm).
  apply fmap_app_inv in Hm as (l1 & k1 & -> & Hm & ->). symmetry in Hm.
  apply fmap_cons_inv in Hm as (x & k2 & -> & Hm & ->). symmetry in Hm.
  apply fmap_app_inv in Hm as (l2 & k3 & -> & Hm & ->). symmetry in Hm.
  apply fmap_cons_inv in Hm as (y & l3 & -> & -> & ->).
  exists x, y. split; [done|]. split; [done|]. by exists l1, l2, l3.
Qed.

Lemma before_elem_of x y l : before x y l → x ∈ l ∧ y ∈ l.
Proof. intros (l1 & l2 & l3 & ->). set_solver. Qed.

End Before.

(* ===================================================================== *)
(** * Ranking                                                             *)
(* ===================================================================== *)

Section Ranking.

Implicit Types (h : store) (c : MatchCriteria) (rows : list loc).
Implicit Types (l : loc) (fields : dict) (score : BreedScore).

Lemma preserves_refl h : preserves h h.
Proof. by intros l _. Qed.

Lemma preserves_trans h1 h2 h3 :
  preserves h1 h2 → preserves h2 h3 → preserves h1 h3.
Proof.
  intros H12 H23 l Hl. rewrite H23, H12; [done..|]. by rewrite H12.
Qed.

Lemma preserves_alloc h (d : dict) : preserves h (<[fresh (dom h) := d]> h).
Proof.
  intros l Hl. apply lookup_insert_ne. intros <-.
  apply elem_of_dom in Hl. by apply is_fresh in Hl.
Qed.

Lemma fresh_unused h : h !! fresh (dom h) = None.
Proof. apply not_elem_of_dom, is_fresh. Qed.

(** One pass through the loop body: a new object receives the fields and
    the two score entries, and the pair is appended. *)
Lemma score_loop_step h c l rows acc fields score :
  h !! l = Some fields → score_dog fields c = Ret score →
  score_loop (l :: rows) c acc h =
  score_loop rows c (acc ++ [(total_score score, fresh (dom h))])
    (<[fresh (dom h) := scored_copy fields score]> h).
Proof.
  intros Hl Hs. cbn [score_loop].
  unfold cmd_bind, deref, lift, dict_copy, setitem. rewrite Hl, Hs.
  cbv beta iota. rewrite Hl. cbv beta iota zeta.
  rewrite lookup_insert_eq, insert_insert_eq.
  rewrite lookup_insert_eq, insert_insert_eq. done.
Qed.

Lemma score_loop_raise h c l rows acc fields e :
  h !! l = Some fields → score_dog fields c = Raise e →
  score_loop (l :: rows) c acc h = Some (Raise e, h).
Proof.
  intros Hl Hs. cbn [score_loop]. unfold cmd_bind, deref, lift.
  by rewrite Hl, Hs.
Qed.

Lemma score_loop_dangling h c l rows acc :
  h !! l = None → score_loop (l :: rows) c acc h = None.
Proof.
  intros Hl. cbn [score_loop]. unfold cmd_bind, deref. by rewrite Hl.
Qed.

(** Whatever the outcome, the loop leaves the existing objects alone. *)
Lemma score_loop_preserves c rows : ∀ acc h res h',
  score_loop rows c acc h = Some (res, h') → preserves h h'.
Proof.
  induction rows as [|l rows IH]; intros acc h res h'.
  - intros [= <- <-]. apply preserves_refl.
  - destruct (h !! l) as [fields|] eqn:Hl;
      [|by rewrite score_loop_dangling].
    destruct (score_dog fields c) as [score|e] eqn:Hs.
    + rewrite (score_loop_step h c l rows acc fields score) by done.
      intros Hrun%IH. eapply preserves_trans; [|exact Hrun].
      apply preserves_alloc.
    + rewrite (score_loop_raise h c l rows acc fields e) by done.
      intros [= <- <-]. apply preserves_refl.
Qed.

Lemma scorable_preserved h h' c l :
  preserves h h' → scorable h c l → scorable h' c l.
Proof.
  intros Hp (fields & score & Hl & Hs). exists fields, score.
  split; [|done]. by rewrite Hp.
Qed.

(** When every row can be scored the loop returns the list of pairs, one
    new object per row, in the order of the rows. *)
Lemma score_loop_returns c rows : ∀ acc h,
  Forall (scorable h c) rows →
  ∃ scored h',
    score_loop rows c acc h = Some (Ret (acc ++ scored), h') ∧
    preserves h h' ∧
    Forall2 (λ l p, is_scored_copy h h' c l p.2 ∧
                    match_score_of h' p.2 = Some p.1) rows scored ∧
    NoDup scored.*2.
Proof.
  induction rows as [|l rows IH]; intros acc h Hrows.
  - exists [], h. rewrite app_nil_r. split; [done|].
    split; [apply preserves_refl|]. split; constructor.
  - apply Forall_cons in Hrows as [(fields & score & Hl & Hs) Hrows].
    set (l' := fresh (dom h)).
    set (h1 := <[l' := scored_copy fields score]> h).
    assert (preserves h h1) as Hp1 by apply preserves_alloc.
    destruct (IH (acc ++ [(total_score score, l')]) h1)
      as (scored & h' & Hrun & Hp & Hall & Hnd).
    { eapply Forall_impl; [exact Hrows|]. intros l0.
      by apply scorable_preserved. }
    assert (h1 !! l' = Some (scored_copy fields score)) as Hl'
      by apply lookup_insert_eq.
    assert (h' !! l' = Some (scored_copy fields score)) as Hl''
      by (rewrite Hp; [done|by rewrite Hl']).
    exists ((total_score score, l') :: scored), h'.
    split; [|split; [|split]].
    + rewrite (score_loop_step h c l rows acc fields score) by done.
      fold l' h1. rewrite Hrun. by rewrite <- app_assoc.
    + by eapply preserves_trans.
    + constructor.
      * split.
        { exists fields, score. simpl.
          split; [done|]. split; [done|]. split; [apply fresh_unused|done]. }
        unfold match_score_of. simpl. rewrite Hl''. simpl.
        unfold scored_copy.
        rewrite lookup_insert_ne by done. by rewrite lookup_insert_eq.
      * apply Forall2_same_length_lookup.
        apply Forall2_same_length_lookup in Hall as [Hlen Hall].
        split; [done|]. intros i l0 p Hi Hp0.
        destruct (Hall i l0 p Hi Hp0)
          as [(fields0 & score0 & Hl0 & Hs0 & Hnew & Hcopy) Hms].
        split; [|done]. exists fields0, score0.
        assert (is_Some (h !! l0)) as Hsome.
        { rewrite Forall_lookup in Hrows.
          destruct (Hrows i l0 Hi) as (? & ? & -> & _). eauto. }
        split; [by rewrite <- Hp1|]. split; [done|]. split; [|done].
        destruct (h !! p.2) eqn:Hh; [|done].
        rewrite Hp1 in Hnew by eauto. congruence.
    + simpl. constructor; [|done].
      intros (p & Heq & Hin)%list_elem_of_fmap.
      apply list_elem_of_lookup in Hin as [i Hi].
      destruct (Forall2_lookup_r _ _ _ _ _ Hall Hi)
        as (l0 & _ & (? & ? & _ & _ & Hnew & _) & _).
      simpl in Heq. rewrite <- Heq in Hnew. congruence.
Qed.

Lemma rank_results_preserves rows c h res h' :
  rank_results rows c h = Some (res, h') → preserves h h'.
Proof.
  unfold rank_results, cmd_bind, cmd_ret.
  destruct (score_loop rows c [] h) as [[[scored|e] h1]|] eqn:Hrun;
    [| |done]; intros [= <- <-]; by eapply score_loop_preserves.
Qed.

Lemma rank_results_returns rows c h :
  Forall (scorable h c) rows →
  ∃ scored h',
    rank_results rows c h = Some (Ret (sort_desc scored).*2, h') ∧
    Forall2 (λ l p, is_scored_copy h h' c l p.2 ∧
                    match_score_of h' p.2 = Some p.1) rows scored ∧
    NoDup scored.*2.
Proof.
  intros Hrows.
  destruct (score_loop_returns c rows [] h Hrows)
    as (scored & h' & Hrun & _ & Hall & Hnd).
  exists scored, h'. split; [|done].
  unfold rank_results, cmd_bind, cmd_ret. by rewrite Hrun.
Qed.

Lemma scored_copy_lookup fields score k :
  scored_copy fields score !! k =
  if decide (k = "score_breakdown"%string) then Some (breakdown_dict score)
  else if decide (k = "match_score"%string)
       then Some (VInt (total_score score))
       else fields !! k.
Proof.
  unfold scored_copy. rewrite !lookup_insert.
  repeat case_decide; congruence.
Qed.

(** C3: when [rank_results] returns (it does as soon as every row can be
    scored), its output is a reordering of the scored copies in which the
    ["match_score"] values never increase from front to back, and in
    which two copies of equal ["match_score"] stand in the order of the
    rows they were made from.  [rank_results] takes no sort argument:
    this order is the only one it produces. *)
Theorem rank_results_descending_stable rows c h :
  Forall (scorable h c) rows →
  ∃ out h' copies,
    rank_results rows c h = Some (Ret out, h') ∧
    Forall2 (is_scored_copy h h' c) rows copies ∧
    NoDup copies ∧ out ≡ₚ copies ∧
    (∀ a b, before a b out →
       ∃ sa sb, match_score_of h' a = Some sa ∧
                match_score_of h' b = Some sb ∧ sb ≤ sa) ∧
    (∀ a b, before a b out →
       match_score_of h' a = match_score_of h' b → before a b copies).
Proof.
  intros Hrows.
  destruct (rank_results_returns rows c h Hrows)
    as (scored & h' & Hrun & Hall & Hnd).
  exists (sort_desc scored).*2, h', scored.*2.
  assert (∀ p, p ∈ sort_desc scored → match_score_of h' p.2 = Some p.1)
    as Hms.
  { intros p Hp. rewrite sort_desc_Permutation in Hp.
    apply list_elem_of_lookup in Hp as [i Hi].
    by destruct (Forall2_lookup_r _ _ _ _ _ Hall Hi) as (? & _ & _ & ?). }
  split; [done|]. split; [|split; [done|split; [|split]]].
  - apply Forall2_fmap_r. eapply Forall2_impl; [exact Hall|]. by intros ? ? [].
  - by rewrite sort_desc_Permutation.
  - intros a b (pa & pb & -> & -> & Hb)%before_fmap_inv.
    exists pa.1, pb.1.
    destruct (before_elem_of _ _ _ Hb) as [Ha Hb'].
    split; [by apply Hms|]. split; [by apply Hms|].
    exact (before_sorted desc pa pb _ (sort_desc_sorted scored) Hb).
  - intros a b (pa & pb & -> & -> & Hb)%before_fmap_inv Heq.
    destruct (before_elem_of _ _ _ Hb) as [Ha Hb'].
    rewrite (Hms pa Ha), (Hms pb Hb') in Heq. injection Heq as Heq.
    apply before_fmap.
    assert (before pa pb (filter (λ p, p.1 = pb.1) (sort_desc scored)))
      as Hf by (by apply before_filter).
    rewrite filter_sort_desc in Hf. by apply before_filter in Hf as [? _].
Qed.

Lemma rank_results_descending_stable_witness :
  ∃ out h' copies,
    rank_results [1%positive; 2%positive; 3%positive]
      MatchCriteria_default three_dogs = Some (Ret out, h') ∧
    Forall2 (is_scored_copy three_dogs h' MatchCriteria_default)
      [1%positive; 2%positive; 3%positive] copies ∧
    NoDup copies ∧ out ≡ₚ copies ∧
    (∀ a b, before a b out →
       ∃ sa sb, match_score_of h' a = Some sa ∧
                match_score_of h' b = Some sb ∧ sb ≤ sa) ∧
    (∀ a b, before a b out →
       match_score_of h' a = match_score_of h' b → before a b copies).
Proof.
  apply (rank_results_descending_stable
           [1%positive; 2%positive; 3%positive] MatchCriteria_default
           three_dogs).
  repeat constructor.
  - exists (dog "Terrier"), zero_score. split; reflexivity.
  - exists (dog "Poodle"), zero_score. split; reflexivity.
  - exists (dog "Collie"), zero_score. split; reflexivity.
Defined.

(** The tie-ordering test: three dogs that all score 0 come out as
    Terrier, Poodle, Collie, the order they went in. *)
Example rank_results_three_dogs :
  observe "breed"
    (rank_results [1%positive; 2%positive; 3%positive]
       MatchCriteria_default three_dogs)
  = Some (Ret [Some (VStr "Terrier"); Some (VStr "Poodle");
               Some (VStr "Collie")]).
Proof. vm_compute. reflexivity. Qed.

(** The ranking test: a perfect match overtakes the record before it. *)
Example rank_results_orders_by_score :
  observe "breed"
    (rank_results [1%positive; 2%positive] (criteria_for_filter "water")
       (<[1%positive := terrier]> {[ 2%positive := labrador ]}))
  = Some (Ret [Some (VStr "Labrador Retriever Mix");
               Some (VStr "Terrier Mix")]) ∧
  observe "match_score"
    (rank_results [1%positive; 2%positive] (criteria_for_filter "water")
       (<[1%positive := terrier]> {[ 2%positive := labrador ]}))
  = Some (Ret [Some (VInt 100); Some (VInt 30)]).
Proof. split; vm_compute; reflexivity. Qed.

(** A single row: its copy is the one new object. *)
Lemma rank_results_single h c l fields score :
  h !! l = Some fields → score_dog fields c = Ret score →
  rank_results [l] c h
  = Some (Ret [fresh (dom h)],
          <[fresh (dom h) := scored_copy fields score]> h).
Proof.
  intros Hl Hs. unfold rank_results, cmd_bind.
  by rewrite (score_loop_step h c l [] [] fields score).
Qed.

(** C9, as the design states it, at the one-record list holding
    [ranked_before]: every field of the record would still be present
    with its value in the copy.  The record's own ["match_score"] is
    replaced by the new score. *)
Lemma prior_match_score_is_replaced :
  ¬ (∀ out h' l' new,
       rank_results [1%positive] MatchCriteria_default
         {[ 1%positive := ranked_before ]} = Some (Ret out, h') →
       l' ∈ out → h' !! l' = Some new →
       ∀ k v, ranked_before !! k = Some v → new !! k = Some v).
Proof.
  intros H.
  set (h := {[ 1%positive := ranked_before ]} : store) in *.
  assert (h !! 1%positive = Some ranked_before) as Hl
    by apply lookup_singleton_eq.
  specialize (H _ _ (fresh (dom h)) _
                (rank_results_single h MatchCriteria_default 1%positive
                   ranked_before zero_score Hl
                   (score_dog_default ranked_before))
                ltac:(apply list_elem_of_here)
                ltac:(apply lookup_insert_eq)
                "match_score"%string (VStr "high") eq_refl).
  rewrite scored_copy_lookup in H. simpl in H. discriminate H.
Qed.

(** C9, amended: the existing objects, the input records among them, are
    left as they were whatever the outcome; when [rank_results] returns,
    each output record is a new object made from one row, holding the
    new ["match_score"] (the total) and ["score_breakdown"], and under
    every other key exactly what the row's record holds there. *)
Theorem rank_results_attaches_scores rows c h :
  (∀ res h', rank_results rows c h = Some (res, h') → preserves h h') ∧
  (Forall (scorable h c) rows →
   ∃ out h' copies,
     rank_results rows c h = Some (Ret out, h') ∧ out ≡ₚ copies ∧
     Forall2 (λ l l', ∃ fields score new,
        h !! l = Some fields ∧ h' !! l = Some fields ∧
        score_dog fields c = Ret score ∧
        h !! l' = None ∧ h' !! l' = Some new ∧
        new !! "match_score" = Some (VInt (total_score score)) ∧
        new !! "score_breakdown" = Some (breakdown_dict score) ∧
        ∀ k, k ≠ "match_score"%string → k ≠ "score_breakdown"%string →
             new !! k = fields !! k) rows copies).
Proof.
  split; [intros res h'; apply rank_results_preserves|].
  intros Hrows.
  destruct (rank_results_returns rows c h Hrows)
    as (scored & h' & Hrun & Hall & Hnd).
  exists (sort_desc scored).*2, h', scored.*2.
  split; [done|]. split; [by rewrite sort_desc_Permutation|].
  apply Forall2_fmap_r. eapply Forall2_impl; [exact Hall|].
  intros l p [(fields & score & Hl & Hs & Hnew & Hcopy) _].
  exists fields, score, (scored_copy fields score).
  split; [done|]. split.
  { rewrite (rank_results_preserves _ _ _ _ _ Hrun); [done|]. by rewrite Hl. }
  split; [done|]. split; [done|]. split; [done|].
  rewrite !scored_copy_lookup. simpl.
  split; [done|]. split; [done|].
  intros k Hk1 Hk2. rewrite scored_copy_lookup.
  by rewrite !decide_False.
Qed.

Lemma rank_results_attaches_scores_witness :
  ∃ out h' copies,
    rank_results [1%positive; 2%positive; 3%positive]
      MatchCriteria_default three_dogs = Some (Ret out, h') ∧
    out ≡ₚ copies ∧
    Forall2 (λ l l', ∃ fields score new,
       three_dogs !! l = Some fields ∧ h' !! l = Some fields ∧
       score_dog fields MatchCriteria_default = Ret score ∧
       three_dogs !! l' = None ∧ h' !! l' = Some new ∧
       new !! "match_score" = Some (VInt (total_score score)) ∧
       new !! "score_breakdown" = Some (breakdown_dict score) ∧
       ∀ k, k ≠ "match_score"%string → k ≠ "score_breakdown"%string →
            new !! k = fields !! k)
      [1%positive; 2%positive; 3%positive] copies.
Proof.
  apply (proj2 (rank_results_attaches_scores
                  [1%positive; 2%positive; 3%positive]
                  MatchCriteria_default three_dogs)).
  repeat constructor.
  - exists (dog "Terrier"), zero_score. split; reflexivity.
  - exists (dog "Poodle"), zero_score. split; reflexivity.
  - exists (dog "Collie"), zero_score. split; reflexivity.
Defined.

(** The field-preservation test: identifiers and names pass through. *)
Example rank_results_keeps_fields :
  (λ k, observe k
          (rank_results [1%positive] (criteria_for_filter "water")
             {[ 1%positive :=
                  <["animal_id"%string := VStr "A12345"]>
                    (<["name"%string := VStr "Buddy"]> labrador) ]}))
    <$> ["animal_id"; "name"; "match_score"]%string
  = [Some (Ret [Some (VStr "A12345")]); Some (Ret [Some (VStr "Buddy")]);
     Some (Ret [Some (VInt 100)])].
Proof. vm_compute. reflexivity. Qed.

End Ranking.

(* ===================================================================== *)
(** * Sanitising: the shape of a record, and whole batches                *)
(* ===================================================================== *)

Section Records.

Implicit Types (r out : dict) (k : string) (v : value).

#[local] Arguments float_of_int : simpl never.
#[local] Arguments parse_float : simpl never.

(** Away from the age key the result is the record with the identifier
    dropped and the defaults filled in. *)
Lemma sanitize_record_lookup r out k :
  sanitize_record r = Ret out → k ≠ "age_upon_outcome_in_weeks"%string →
  out !! k = fill_defaults r !! k.
Proof.
  rewrite sanitize_record_unfold. intros H Hk.
  destruct (coerce_age _) as [v|[]]; simplify_eq;
    by rewrite lookup_insert_ne.
Qed.

(** A sanitised record sanitises to itself. *)
Lemma sanitize_record_again r out :
  sanitize_record r = Ret out → sanitize_record out = Ret out.
Proof.
  intros Hr.
  pose proof (sanitize_record_age_shape r out Hr) as Hshape.
  rewrite sanitize_record_unfold in Hr.
  assert (∃ v, out = <["age_upon_outcome_in_weeks"%string := v]>
                       (fill_defaults r)) as [v ->].
  { destruct (coerce_age _) as [v|[]]; simplify_eq; eauto. }
  rewrite sanitize_record_unfold, fill_defaults_idem.
  unfold get. rewrite lookup_insert_eq. simpl.
  rewrite lookup_insert_eq in Hshape.
  destruct Hshape as [[= ->]|[f [= ->]]]; simpl;
    by rewrite insert_insert_eq.
Qed.

(** The contract of [sanitize_record].  When it returns, the record has
    no ["_id"], holds each of the three required and three optional
    fields, and its age is [None] or a [float].  Otherwise the exception
    is [OverflowError], and the age was an [int] that [float] cannot
    represent. *)
Theorem sanitize_record_contract r :
  match sanitize_record r with
  | Ret out =>
      out !! "_id" = None ∧
      (∀ k, k ∈ REQUIRED_FIELDS ++ OPTIONAL_FIELDS_WITH_DEFAULTS.*1 →
            is_Some (out !! k)) ∧
      (out !! "age_upon_outcome_in_weeks" = Some VNone ∨
       ∃ f, out !! "age_upon_outcome_in_weeks" = Some (VFloat f))
  | Raise e =>
      e = OverflowError ∧
      ∃ n, r !! "age_upon_outcome_in_weeks" = Some (VInt n) ∧
           float_of_int n = Raise OverflowError
  end.
Proof.
  destruct (sanitize_record r) as [out|e] eqn:Hr.
  - split; [|split].
    + rewrite (sanitize_record_lookup r out "_id" Hr) by done.
      by rewrite fill_defaults_lookup.
    + intros k Hk.
      destruct (decide (k = "age_upon_outcome_in_weeks"%string)) as [->|Hage].
      { destruct (sanitize_record_age_shape r out Hr) as [->|[f ->]]; eauto. }
      rewrite (sanitize_record_lookup r out k Hr Hage), fill_defaults_lookup.
      simpl in Hk. rewrite !elem_of_cons, elem_of_nil in Hk.
      destruct Hk as [->|[->|[->|[->|[->|[->|[]]]]]]]; simpl;
        destruct (r !! _); eauto.
    + by apply (sanitize_record_age_shape r).
  - by apply sanitize_record_raises.
Qed.

(** Every field other than ["_id"] and the age passes through
    [sanitize_record]: a key the record has keeps its value, whatever
    that value is ([None] included); a key it lacks appears only if it
    is a required field (with [None]) or an optional one (with its
    default). *)
Theorem sanitize_record_keeps_fields r out k :
  sanitize_record r = Ret out →
  k ≠ "_id"%string → k ≠ "age_upon_outcome_in_weeks"%string →
  out !! k =
    match r !! k with
    | Some v => Some v
    | None =>
        if decide (k ∈ REQUIRED_FIELDS) then Some VNone
        else (list_to_map OPTIONAL_FIELDS_WITH_DEFAULTS : dict) !! k
    end.
Proof.
  intros Hr Hid Hage.
  rewrite (sanitize_record_lookup r out k Hr Hage), fill_defaults_lookup.
  rewrite decide_False by done. destruct (r !! k) as [v|]; [done|].
  case_decide; [done|]. simpl.
  rewrite !lookup_insert, lookup_empty.
  repeat case_decide; simplify_eq; done.
Qed.

Lemma sanitize_record_keeps_fields_witness :
  let r := <["_id"%string := VObjectId "5f1a"]>
             (<["name"%string := VNone]> (with_age (VStr "12"))) in
  ∃ out,
    sanitize_record r = Ret out ∧
    out !! "name" = Some VNone ∧
    out !! "location_lat" = Some VNone ∧
    out !! "animal_id" = None.
Proof.
  intros r.
  assert (sanitize_record r =
          Ret (<["age_upon_outcome_in_weeks"%string :=
                   VFloat (S754_finite false 6755399441055744 (-49))]>
                 (fill_defaults r))) as Hr.
  { rewrite sanitize_record_unfold.
    assert (coerce_age (get (fill_defaults r) "age_upon_outcome_in_weeks")
            = Ret (VFloat (S754_finite false 6755399441055744 (-49))))
      as -> by (vm_compute; reflexivity).
    reflexivity. }
  eexists. split; [exact Hr|].
  split; [|split].
  - rewrite (sanitize_record_keeps_fields r _ "name" Hr)
      by discriminate.
    vm_compute. reflexivity.
  - rewrite (sanitize_record_keeps_fields r _ "location_lat" Hr)
      by discriminate.
    vm_compute. reflexivity.
  - rewrite (sanitize_record_keeps_fields r _ "animal_id" Hr)
      by discriminate.
    vm_compute. reflexivity.
Defined.

End Records.

Section Batches.

Implicit Types (r out : dict) (rows outs : list dict).

Lemma sanitize_rows_cons r rows :
  sanitize_rows (r :: rows) =
  out ← sanitize_record r; outs ← sanitize_rows rows; Ret (out :: outs).
Proof. reflexivity. Qed.

Lemma sanitize_rows_Ret rows outs :
  sanitize_rows rows = Ret outs ↔
  Forall2 (λ r out, sanitize_record r = Ret out) rows outs.
Proof.
  revert outs. induction rows as [|r rows IH]; intros outs.
  - split; [intros [= <-]; constructor|]. by intros ->%Forall2_nil_inv_l.
  - rewrite sanitize_rows_cons.
    destruct (sanitize_record r) as [out|e] eqn:Hr; simpl.
    + destruct (sanitize_rows rows) as [outs'|e] eqn:Hrows; simpl.
      * split.
        { intros [= <-]. constructor; [done|]. by apply IH. }
        intros (out' & outs'' & Hout & Hall & ->)%Forall2_cons_inv_l.
        apply IH in Hall. congruence.
      * split; [done|].
        intros (out' & outs'' & Hout & Hall & ->)%Forall2_cons_inv_l.
        apply IH in Hall. congruence.
    + split; [done|].
      intros (out' & outs'' & Hout & _)%Forall2_cons_inv_l. congruence.
Qed.

(** [sanitize_rows] returns exactly the list of the sanitised records,
    one per row and in the order of the rows. *)
Theorem sanitize_rows_pointwise rows outs :
  (sanitize_rows rows = Ret outs ↔
   Forall2 (λ r out, sanitize_record r = Ret out) rows outs) ∧
  (sanitize_rows rows = Ret outs → length outs = length rows).
Proof.
  split; [apply sanitize_rows_Ret|].
  intros Hall%sanitize_rows_Ret. symmetry. by eapply Forall2_length.
Qed.

(** One record that cannot be sanitised fails the whole batch: an
    exception leaves [sanitize_rows] exactly when some row holds an
    [int] age that [float] cannot represent, and it is [OverflowError]. *)
Theorem sanitize_rows_raises rows e :
  sanitize_rows rows = Raise e ↔
  e = OverflowError ∧
  ∃ r n, r ∈ rows ∧ r !! "age_upon_outcome_in_weeks" = Some (VInt n) ∧
         float_of_int n = Raise OverflowError.
Proof.
  revert e. induction rows as [|r rows IH]; intros e.
  - split; [done|]. intros (_ & r & n & Hin & _). by apply elem_of_nil in Hin.
  - rewrite sanitize_rows_cons.
    destruct (sanitize_record r) as [out|e'] eqn:Hr; simpl.
    + assert (sanitize_rows rows ≫= (λ outs, Ret (out :: outs)) = Raise e ↔
              sanitize_rows rows = Raise e) as ->.
      { destruct (sanitize_rows rows); simpl; split; congruence. }
      rewrite IH.
      split; intros (-> & r' & n & Hin & Hage & Hf); (split; [done|]).
      * exists r', n. split; [by apply list_elem_of_further|done].
      * apply elem_of_cons in Hin as [->|Hin]; [|eauto].
        assert (sanitize_record r = Raise OverflowError) as Hr'
          by (apply sanitize_record_raises; eauto).
        congruence.
    + apply sanitize_record_raises in Hr as Hr'.
      destruct Hr' as (-> & n & Hage & Hf). split.
      * intros [= <-]. split; [done|]. exists r, n.
        split; [apply list_elem_of_here|done].
      * by intros [-> _].
Qed.

(** Sanitising a batch twice is sanitising it once. *)
Theorem sanitize_rows_idempotent rows :
  sanitize_rows rows ≫= sanitize_rows = sanitize_rows rows.
Proof.
  destruct (sanitize_rows rows) as [outs|e] eqn:Hrows; [|done]. simpl.
  apply sanitize_rows_Ret in Hrows. apply sanitize_rows_Ret.
  induction Hrows as [|r out rows outs Hr _ IH]; constructor; [|done].
  by apply (sanitize_record_again r).
Qed.

End Batches.

(* ===================================================================== *)
(** * The structure of a score                                            *)
(* ===================================================================== *)

Section ScoreStructure.

Implicit Types (r : dict) (c : MatchCriteria) (s : BreedScore).

(** [score_dog] reads the breed, the sex and the age of a record and
    nothing else: two records that agree on these three keys get the
    same outcome, exception included. *)
Theorem score_dog_reads_three_fields r r' c :
  (∀ k, k ∈ REQUIRED_FIELDS → r !! k = r' !! k) →
  score_dog r c = score_dog r' c.
Proof.
  intros H. unfold score_dog, _score_breed, _score_age, _score_sex, get.
  rewrite (H "breed"%string), (H "sex_upon_outcome"%string),
    (H "age_upon_outcome_in_weeks"%string); [done|..];
    unfold REQUIRED_FIELDS; rewrite !elem_of_cons; auto.
Qed.

Lemma score_dog_reads_three_fields_witness :
  score_dog labrador (criteria_for_filter "water") =
  score_dog (<["name"%string := VStr "Buddy"]>
             (<["match_score"%string := VInt 7]> labrador))
    (criteria_for_filter "water").
Proof.
  apply score_dog_reads_three_fields.
  intros k Hk. unfold REQUIRED_FIELDS in Hk.
  rewrite !elem_of_cons, elem_of_nil in Hk.
  destruct Hk as [->|[->|[->|[]]]]; reflexivity.
Defined.

(** The components of a returned score, one by one. *)
Lemma score_dog_components r c s :
  score_dog r c = Ret s →
  (breed_match s = 0 ∨ breed_match s = 50) ∧
  (age_match s = 0 ∨ age_match s = 30) ∧
  (sex_match s = 0 ∨ sex_match s = 20) ∧
  total_score s = breed_match s + age_match s + sex_match s.
Proof.
  intros (b & Hb & ->)%score_dog_Ret. simpl.
  split; [|split; [apply _score_age_cases|split; [apply _score_sex_cases|done]]].
  destruct (_score_breed_cases r c) as [H|[H|[H _]]];
    rewrite H in Hb; simplify_eq; auto.
Qed.

(** The total tells the three components apart except at 50, which is
    both a breed match alone and an age match with a sex match: two
    scores with the same total other than 50 are the same score, and at
    50 both breakdowns occur. *)
Theorem total_score_determines_breakdown :
  (∀ r c s r' c' s',
     score_dog r c = Ret s → score_dog r' c' = Ret s' →
     total_score s = total_score s' → total_score s ≠ 50 → s = s') ∧
  (∃ r r' s s',
     score_dog r (criteria_for_filter "water") = Ret s ∧
     score_dog r' (criteria_for_filter "water") = Ret s' ∧
     total_score s = 50 ∧ total_score s' = 50 ∧
     breed_match s = 50 ∧ breed_match s' = 0).
Proof.
  split.
  - intros r c s r' c' s' Hs Hs' Heq Hne.
    apply score_dog_components in Hs as (Hb & Ha & Hx & Ht).
    apply score_dog_components in Hs' as (Hb' & Ha' & Hx' & Ht').
    destruct s as [b a x t], s' as [b' a' x' t']. simpl in *.
    assert (b = b' ∧ a = a' ∧ x = x' ∧ t = t') as (-> & -> & -> & ->)
      by lia.
    done.
  - exists {[ "breed"%string := VStr "Newfoundland" ]},
      (<["age_upon_outcome_in_weeks"%string := VInt 52]>
       {[ "sex_upon_outcome"%string := VStr "Intact Female" ]}),
      {| breed_match := 50; age_match := 0; sex_match := 0;
         total_score := 50 |},
      {| breed_match := 0; age_match := 30; sex_match := 20;
         total_score := 50 |}.
    repeat split; vm_compute; reflexivity.
Qed.

(** A score of 100 is a match on all three components. *)
Lemma total_score_100 r c :
  (∃ s, score_dog r c = Ret s ∧ total_score s = 100) ↔
  _score_breed r c = Ret 50 ∧ _score_age r c = 30 ∧ _score_sex r c = 20.
Proof.
  split.
  - intros (s & Hs & Ht).
    pose proof (score_dog_components r c s Hs) as (Hb & Ha & Hx & Hsum).
    apply score_dog_Ret in Hs as (b & Hb' & ->). simpl in *.
    assert (b = 50 ∧ _score_age r c = 30 ∧ _score_sex r c = 20)
      as (-> & ? & ?) by lia.
    done.
  - intros (Hb & Ha & Hx). eexists. split.
    + apply score_dog_Ret. eexists. split; [exact Hb|done].
    + simpl. rewrite Ha, Hx. done.
Qed.

(** ... under a criteria with every dimension present. *)
Lemma perfect_score_full_criteria r breeds sex lo hi :
  ""%string ∉ breeds → sex ≠ ""%string →
  (∃ s, score_dog r {| preferred_breeds := Some (list_to_set breeds);
                       min_weeks := Some lo; max_weeks := Some hi;
                       preferred_sex := Some sex |} = Ret s ∧
        total_score s = 100) ↔
  ∃ b age x,
    r !! "breed" = Some (VStr b) ∧ b ∈ breeds ∧
    r !! "sex_upon_outcome" = Some (VStr sex) ∧
    r !! "age_upon_outcome_in_weeks" = Some age ∧
    as_number age = Some x ∧ in_range lo hi x.
Proof.
  intros Hbreeds Hsex.
  rewrite total_score_100, _score_breed_50, _score_age_30, _score_sex_20.
  simpl. split.
  - intros ((bs & b & [= <-] & Hb & _ & Hin) &
            (lo' & hi' & age & x & [= <-] & [= <-] & Hage & Hx & Hr) &
            (w & [= <-] & Hs & _)).
    exists b, age, x. by rewrite elem_of_list_to_set in Hin.
  - intros (b & age & x & Hb & Hin & Hs & Hage & Hx & Hr).
    split; [|split].
    + exists (list_to_set breeds), b. rewrite elem_of_list_to_set.
      split; [done|]. split; [done|]. split; [|done]. by intros ->.
    + by exists lo, hi, age, x.
    + by exists sex.
Qed.

(** For each rescue category the score is 100 exactly on the records
    that meet the three constraints written in the category's query
    document: the breed is one of the listed strings, the sex is the
    listed string, and the age is a number within the two bounds. *)
Theorem perfect_score_iff_query_constraints (filter_type : string) r :
  filter_type ∈ ["water"; "mountain"; "disaster"]%string →
  ∃ breeds sex lo hi,
    build_rescue_query filter_type = Ret (and_query breeds sex lo hi) ∧
    ((∃ s, score_dog r (criteria_for_filter filter_type) = Ret s ∧
           total_score s = 100) ↔
     ∃ b age x,
       r !! "breed" = Some (VStr b) ∧ b ∈ breeds ∧
       r !! "sex_upon_outcome" = Some (VStr sex) ∧
       r !! "age_upon_outcome_in_weeks" = Some age ∧
       as_number age = Some x ∧ in_range lo hi x).
Proof.
  rewrite !elem_of_cons, elem_of_nil.
  intros [->|[->|[->|[]]]].
  - exists ["Labrador Retriever Mix"; "Chesapeake Bay Retriever";
            "Newfoundland"]%string, "Intact Female"%string, 26, 156.
    split; [reflexivity|].
    rewrite <- perfect_score_full_criteria;
      [|rewrite !elem_of_cons, elem_of_nil; naive_solver|done].
    assert (criteria_for_filter "water" =
            {| preferred_breeds :=
                 Some (list_to_set
                         ["Labrador Retriever Mix"; "Chesapeake Bay Retriever";
                          "Newfoundland"]%string);
               min_weeks := Some 26; max_weeks := Some 156;
               preferred_sex := Some "Intact Female"%string |}) as ->; [|done].
    unfold criteria_for_filter; simpl. do 2 f_equal; set_solver.
  - exists ["German Shepherd"; "Alaskan Malamute"; "Old English Sheepdog";
            "Siberian Husky"; "Rottweiler"]%string, "Intact Male"%string,
      26, 156.
    split; [reflexivity|].
    rewrite <- perfect_score_full_criteria;
      [|rewrite !elem_of_cons, elem_of_nil; naive_solver|done].
    assert (criteria_for_filter "mountain" =
            {| preferred_breeds :=
                 Some (list_to_set
                         ["German Shepherd"; "Alaskan Malamute";
                          "Old English Sheepdog"; "Siberian Husky";
                          "Rottweiler"]%string);
               min_weeks := Some 26; max_weeks := Some 156;
               preferred_sex := Some "Intact Male"%string |}) as ->; [|done].
    unfold criteria_for_filter; simpl. do 2 f_equal; set_solver.
  - exists ["Doberman Pinscher"; "German Shepherd"; "Golden Retriever";
            "Bloodhound"; "Rottweiler"]%string, "Intact Male"%string,
      20, 300.
    split; [reflexivity|].
    rewrite <- perfect_score_full_criteria;
      [|rewrite !elem_of_cons, elem_of_nil; naive_solver|done].
    assert (criteria_for_filter "disaster" =
            {| preferred_breeds :=
                 Some (list_to_set
                         ["Doberman Pinscher"; "German Shepherd";
                          "Golden Retriever"; "Bloodhound";
                          "Rottweiler"]%string);
               min_weeks := Some 20; max_weeks := Some 300;
               preferred_sex := Some "Intact Male"%string |}) as ->; [|done].
    unfold criteria_for_filter; simpl. do 2 f_equal; set_solver.
Qed.

Lemma perfect_score_iff_query_constraints_witness :
  ∃ breeds sex lo hi,
    build_rescue_query "water" = Ret (and_query breeds sex lo hi) ∧
    ((∃ s, score_dog labrador (criteria_for_filter "water") = Ret s ∧
           total_score s = 100) ↔
     ∃ b age x,
       labrador !! "breed" = Some (VStr b) ∧ b ∈ breeds ∧
       labrador !! "sex_upon_outcome" = Some (VStr sex) ∧
       labrador !! "age_upon_outcome_in_weeks" = Some age ∧
       as_number age = Some x ∧ in_range lo hi x).
Proof.
  apply (perfect_score_iff_query_constraints "water" labrador).
  apply list_elem_of_here.
Defined.

End ScoreStructure.

Section QueryErrors.

(** [build_rescue_query] answers only a valid category: on any other
    string it raises [ValueError] and builds nothing; and the empty
    document, which selects every record, is returned for ["all"]
    alone. *)
Theorem build_rescue_query_rejects_invalid (filter_type : string) :
  match build_rescue_query filter_type with
  | Ret q =>
      filter_type ∈ ALLOWED_FILTERS ∧
      (q = ∅ ↔ filter_type = "all"%string)
  | Raise e =>
      e = ValueError ∧ (filter_type ∉ ALLOWED_FILTERS) ∧
      validate_filter_type filter_type = Raise ValueError
  end.
Proof.
  unfold build_rescue_query.
  destruct (validate_filter_type filter_type) as [v|e] eqn:Hv; simpl;
    unfold validate_filter_type in Hv; case_bool_decide as Hin;
    simplify_eq; [|done].
  try apply dec_stable in Hin.
  assert (∀ breeds sex lo hi, and_query breeds sex lo hi ≠ ∅) as Hne.
  { intros. unfold and_query. apply map_non_empty_singleton. }
  repeat case_bool_decide; subst; (split; [done|]);
    try (split; [by intros ?%Hne|done]).
  split; [intros _|done].
  apply ALLOWED_FILTERS_spec in Hin. naive_solver.
Qed.

End QueryErrors.

Section SanitisedScoring.

Implicit Types (r out : dict) (c : MatchCriteria).

#[local] Arguments float_of_int : simpl never.
#[local] Arguments parse_float : simpl never.

(** Scoring a sanitised record.  Sanitising changes nothing in the breed
    and sex points.  The age earns its 30 points exactly when the age of
    the raw record is not [None], converts with [float], and the float
    lies within the bounds: text that reads as a number thus counts once
    the record is sanitised, though it counts for nothing in the raw
    record. *)
Theorem sanitized_record_scoring r out c :
  sanitize_record r = Ret out →
  _score_breed out c = _score_breed r c ∧
  _score_sex out c = _score_sex r c ∧
  (_score_age out c = 30 ↔
   ∃ lo hi f,
     min_weeks c = Some lo ∧ max_weeks c = Some hi ∧
     get r "age_upon_outcome_in_weeks" ≠ VNone ∧
     float (get r "age_upon_outcome_in_weeks") = Ret f ∧
     in_range lo hi (NFloat f)).
Proof.
  intros Hr.
  assert (∀ k, k ∈ ["breed"; "sex_upon_outcome"]%string →
               get out k = get r k) as Hget.
  { intros k Hk. rewrite !elem_of_cons, elem_of_nil in Hk. unfold get.
    destruct Hk as [->|[->|[]]];
      rewrite (sanitize_record_lookup r out _ Hr) by done;
      rewrite fill_defaults_lookup; simpl; by destruct (r !! _). }
  split; [|split].
  { unfold _score_breed. rewrite Hget; [done|]. apply list_elem_of_here. }
  { unfold _score_sex. rewrite Hget; [done|].
    apply list_elem_of_further, list_elem_of_here. }
  apply sanitize_record_age in Hr.
  rewrite _score_age_30. split.
  - intros (lo & hi & age & x & Hlo & Hhi & Hage & Hx & Hin).
    rewrite Hr in Hage. injection Hage as <-.
    exists lo, hi.
    destruct (get r "age_upon_outcome_in_weeks") as [|b|n|f|t|l|d|h] eqn:Hg;
      cbn [float] in Hx |- *; try done.
    + destruct (float_of_int _) as [f'|e]; [|done].
      injection Hx as <-. by exists f'.
    + destruct (float_of_int _) as [f'|e]; [|done].
      injection Hx as <-. by exists f'.
    + injection Hx as <-. by exists f.
    + destruct (parse_float t) as [f'|]; [|done].
      injection Hx as <-. by exists f'.
  - intros (lo & hi & f & Hlo & Hhi & Hne & Hf & Hin).
    exists lo, hi, (VFloat f), (NFloat f).
    split; [done|]. split; [done|]. split; [|done].
    rewrite Hr. f_equal.
    destruct (get r "age_upon_outcome_in_weeks"); try done;
      by rewrite Hf.
Qed.

Lemma sanitized_record_scoring_witness :
  let r := with_age (VStr "52") in
  let out := <["age_upon_outcome_in_weeks"%string :=
                 VFloat (S754_finite false 7318349394477056 (-47))]>
               (fill_defaults r) in
  _score_age r (criteria_for_filter "water") = 0 ∧
  sanitize_record r = Ret out ∧
  _score_age out (criteria_for_filter "water") = 30.
Proof.
  intros r out.
  assert (sanitize_record r = Ret out) as Hr.
  { rewrite sanitize_record_unfold.
    assert (coerce_age (get (fill_defaults r) "age_upon_outcome_in_weeks")
            = Ret (VFloat (S754_finite false 7318349394477056 (-47))))
      as -> by (vm_compute; reflexivity).
    reflexivity. }
  split; [reflexivity|]. split; [exact Hr|].
  apply (proj2 (proj2
    (sanitized_record_scoring r out (criteria_for_filter "water") Hr))).
  exists 26, 156, (S754_finite false 7318349394477056 (-47)).
  split; [reflexivity|]. split; [reflexivity|]. split; [discriminate|].
  split; [vm_compute; reflexivity|].
  apply in_range_true. vm_compute. reflexivity.
Defined.

End SanitisedScoring.

(* ===================================================================== *)
(** * Ranking: failure, and input that is already in order               *)
(* ===================================================================== *)

Section SortedInput.

Context {A : Type}.
Implicit Types (x y : Z * A) (l : list (Z * A)).

(** The sort moves nothing in a list that is already descending. *)
Lemma sort_desc_sorted_id l : StronglySorted desc l → sort_desc l = l.
Proof.
  induction 1 as [|x l Hl IH Hx]; [done|].
  change (sort_desc (x :: l)) with (insert_desc x (sort_desc l)).
  rewrite IH. destruct l as [|y l']; [done|]. simpl.
  apply Forall_cons in Hx as [Hxy _]. unfold desc in Hxy.
  by rewrite (proj2 (Z.ltb_ge _ _)).
Qed.

(** Being descending is a matter of the keys alone. *)
Lemma StronglySorted_desc_keys l :
  StronglySorted desc l ↔ StronglySorted (λ a b : Z, b ≤ a) l.*1.
Proof.
  induction l as [|x l IH]; simpl; [split; constructor|].
  split; intros H; inversion_clear H as [|?? Hs Hf]; constructor;
    try (by apply IH).
  - apply (Forall_fmap fst (λ b : Z, b ≤ x.1)).
    eapply Forall_impl; [exact Hf|]. by intros [].
  - apply (Forall_fmap fst (λ b : Z, b ≤ x.1)) in Hf.
    eapply Forall_impl; [exact Hf|]. by intros [].
Qed.

Lemma StronglySorted_desc_const (k : Z) l :
  Forall (λ x, x.1 = k) l → StronglySorted desc l.
Proof.
  induction 1 as [|x l Hx Hl IH]; constructor; [done|].
  eapply Forall_impl; [exact Hl|]. intros y Hy. unfold desc.
  simpl in *. lia.
Qed.

End SortedInput.

Section RankingOutcomes.

Implicit Types (h : store) (c : MatchCriteria) (rows : list loc).
Implicit Types (l : loc) (fields : dict) (score : BreedScore).

Lemma score_dog_raises_TypeError fields c e :
  score_dog fields c = Raise e → e = TypeError.
Proof.
  intros H%score_dog_Raise.
  destruct (_score_breed_cases fields c) as [H'|[H'|(H' & _)]]; congruence.
Qed.

(** [score_dog] fails exactly on a breed that is truthy and unhashable (a
    non-empty list or dictionary) when preferred breeds are given. *)
Lemma score_dog_TypeError fields c :
  score_dog fields c = Raise TypeError ↔
  is_Some (preferred_breeds c) ∧ truthy (get fields "breed") = true ∧
  hashable (get fields "breed") = false.
Proof.
  rewrite score_dog_Raise. split.
  - intros H.
    destruct (_score_breed_cases fields c) as [H'|[H'|(_ & ? & ? & ?)]];
      [congruence..|done].
  - intros ([bs Hbs] & Ht & Hh). unfold _score_breed. rewrite Hbs.
    destruct (get fields "breed"); simplify_eq/=; by rewrite ?Ht.
Qed.

(** The two fields that [rank_results] assigns are not among those that
    [score_dog] reads. *)
Lemma score_dog_scored_copy fields score c :
  score_dog (scored_copy fields score) c = score_dog fields c.
Proof.
  unfold score_dog, _score_breed, _score_age, _score_sex, get.
  by rewrite !scored_copy_lookup.
Qed.

Lemma scored_copy_scored_copy fields score :
  scored_copy (scored_copy fields score) score = scored_copy fields score.
Proof.
  apply map_eq. intros k. rewrite !scored_copy_lookup.
  by repeat case_decide.
Qed.

Lemma match_score_of_scored_copy h l fields score :
  h !! l = Some (scored_copy fields score) →
  match_score_of h l = Some (total_score score).
Proof.
  intros Hl. unfold match_score_of. rewrite Hl. simpl.
  by rewrite scored_copy_lookup.
Qed.

(** The loop over allocated rows: either every row can be scored, or the
    loop stops with the [TypeError] of a row that cannot. *)
Lemma score_loop_raises c rows : ∀ acc h,
  Forall (λ l, is_Some (h !! l)) rows →
  Forall (scorable h c) rows ∨
  ((∃ h', score_loop rows c acc h = Some (Raise TypeError, h')) ∧
   Exists (λ l, ∃ fields, h !! l = Some fields ∧
                          score_dog fields c = Raise TypeError) rows).
Proof.
  induction rows as [|l rows IH]; intros acc h Hal; [left; constructor|].
  apply Forall_cons in Hal as [[fields Hl] Hal].
  destruct (score_dog fields c) as [score|e] eqn:Hs.
  - set (h1 := <[fresh (dom h) := scored_copy fields score]> h).
    assert (preserves h h1) as Hp by apply preserves_alloc.
    destruct (IH (acc ++ [(total_score score, fresh (dom h))]) h1)
      as [Hall|[[h' Hrun] Hex]].
    { eapply Forall_impl; [exact Hal|]. intros l0 Hl0. by rewrite Hp. }
    + left. constructor; [by exists fields, score|].
      apply Forall_forall. intros l0 Hin.
      rewrite Forall_forall in Hal, Hall.
      destruct (Hall l0 Hin) as (f0 & s0 & Hl0 & Hs0).
      exists f0, s0. split; [|done]. rewrite <- Hp; [done|by apply Hal].
    + right. split.
      * exists h'.
        by rewrite (score_loop_step h c l rows acc fields score).
      * apply Exists_cons_tl. apply Exists_exists in Hex
          as (l0 & Hin & f0 & Hl0 & Hs0).
        apply Exists_exists. exists l0. split; [done|]. exists f0.
        split; [|done]. rewrite Forall_forall in Hal.
        rewrite <- Hp; [done|by apply Hal].
  - apply score_dog_raises_TypeError in Hs as He. subst e.
    right. split.
    + exists h. by apply (score_loop_raise h c l rows acc fields).
    + apply Exists_cons_hd. by exists fields.
Qed.

(** When [rank_results] fails.  Over records that exist, it returns
    exactly when every record can be scored, and raises exactly when
    preferred breeds are given and some record holds a non-empty list or
    dictionary as its breed.  The exception is [TypeError], no list is
    returned, and the records passed in are left as they were. *)
Theorem rank_results_raises rows c h :
  Forall (λ l, is_Some (h !! l)) rows →
  ((∃ out h', rank_results rows c h = Some (Ret out, h')) ↔
   Forall (scorable h c) rows) ∧
  ((∃ e h', rank_results rows c h = Some (Raise e, h')) ↔
   Exists (λ l, ∃ fields,
             h !! l = Some fields ∧ is_Some (preferred_breeds c) ∧
             truthy (get fields "breed") = true ∧
             hashable (get fields "breed") = false) rows) ∧
  (∀ e h', rank_results rows c h = Some (Raise e, h') →
           e = TypeError ∧ preserves h h').
Proof.
  intros Hal.
  assert (Forall (scorable h c) rows →
          Exists (λ l, ∃ fields, h !! l = Some fields ∧
                   score_dog fields c = Raise TypeError) rows → False)
    as Hexcl.
  { rewrite Forall_forall, Exists_exists.
    intros Hall (l & Hin & f & Hl & Hs).
    destruct (Hall l Hin) as (f' & s' & Hl' & Hs'). congruence. }
  assert (Exists (λ l, ∃ fields, h !! l = Some fields ∧
                   score_dog fields c = Raise TypeError) rows ↔
          Exists (λ l, ∃ fields,
             h !! l = Some fields ∧ is_Some (preferred_breeds c) ∧
             truthy (get fields "breed") = true ∧
             hashable (get fields "breed") = false) rows) as Hcond.
  { split; intros Hex; (eapply Exists_impl; [exact Hex|]);
      intros l (f & Hl & Hs); exists f; (split; [done|]);
      by apply score_dog_TypeError. }
  rewrite <- Hcond.
  destruct (score_loop_raises c rows [] h Hal) as [Hall|[[h' Hrun] Hex]].
  - destruct (rank_results_returns rows c h Hall) as (scored & h' & Hrun & _).
    split; [split; eauto|]. split.
    + split; [intros (e & h'' & Hr); congruence|].
      intros Hex. destruct (Hexcl Hall Hex).
    + intros e h'' Hr. congruence.
  - assert (rank_results rows c h = Some (Raise TypeError, h')) as Hr.
    { unfold rank_results, cmd_bind. by rewrite Hrun. }
    split; [|split].
    + split; [intros (out & h'' & ?); congruence|].
      intros Hall. destruct (Hexcl Hall Hex).
    + split; [done|eauto].
    + intros e h'' Hr'. rewrite Hr in Hr'. injection Hr' as <- <-.
      split; [done|]. by eapply rank_results_preserves.
Qed.

Lemma rank_results_raises_witness :
  ∃ e h',
    rank_results [1%positive] (criteria_for_filter "water")
      {[ 1%positive :=
           {[ "breed"%string := VList [VStr "Newfoundland"] ]} ]}
    = Some (Raise e, h').
Proof.
  apply (proj1 (proj2
    (rank_results_raises [1%positive] (criteria_for_filter "water")
       {[ 1%positive :=
            {[ "breed"%string := VList [VStr "Newfoundland"] ]} ]}
       ltac:(repeat constructor; eexists; reflexivity)))).
  apply Exists_cons_hd.
  exists {[ "breed"%string := VList [VStr "Newfoundland"] ]}.
  split; [reflexivity|]. split; [eexists; reflexivity|].
  split; reflexivity.
Defined.

(** What [rank_results] returns when the scores it computes are already
    descending in the order of the rows: the copies, in that order. *)
Lemma rank_results_in_order rows c h scored h' :
  rank_results rows c h = Some (Ret (sort_desc scored).*2, h') →
  StronglySorted desc scored →
  rank_results rows c h = Some (Ret scored.*2, h').
Proof. intros Hrun Hs. by rewrite (sort_desc_sorted_id scored Hs) in Hrun. Qed.

(** Without criteria (the ["all"] category) [rank_results] never raises
    and reorders nothing: over records that exist it returns their
    copies in the order of the rows, each with every component and the
    total at 0. *)
Theorem rank_results_no_criteria_keeps_order rows h :
  Forall (λ l, is_Some (h !! l)) rows →
  ∃ out h',
    rank_results rows MatchCriteria_default h = Some (Ret out, h') ∧
    Forall2 (λ l l', ∃ fields,
               h !! l = Some fields ∧ h !! l' = None ∧
               h' !! l' = Some (scored_copy fields zero_score)) rows out.
Proof.
  intros Hal.
  assert (Forall (scorable h MatchCriteria_default) rows) as Hall.
  { eapply Forall_impl; [exact Hal|]. intros l [fields Hl].
    by exists fields, zero_score. }
  destruct (rank_results_returns rows _ h Hall)
    as (scored & h' & Hrun & Hcopies & _).
  assert (Forall2 (λ l p, ∃ fields,
            h !! l = Some fields ∧ h !! p.2 = None ∧
            h' !! p.2 = Some (scored_copy fields zero_score) ∧ p.1 = 0)
            rows scored) as Hzero.
  { eapply Forall2_impl; [exact Hcopies|].
    intros l p [(fields & score & Hl & Hs & Hnew & Hcopy) Hms].
    rewrite score_dog_default in Hs. injection Hs as <-.
    exists fields. split; [done|]. split; [done|]. split; [done|].
    rewrite (match_score_of_scored_copy h' p.2 fields zero_score Hcopy)
      in Hms.
    by injection Hms as <-. }
  exists scored.*2, h'. split.
  - apply rank_results_in_order; [done|].
    apply (StronglySorted_desc_const 0).
    eapply (Forall2_Forall_r _ (λ p : Z * loc, p.1 = 0)); [exact Hzero|].
    apply Forall_forall. by intros l _ p (fields & _ & _ & _ & ?).
  - apply Forall2_fmap_r. eapply Forall2_impl; [exact Hzero|].
    intros l p (fields & ? & ? & ? & _). by exists fields.
Qed.

Lemma rank_results_no_criteria_keeps_order_witness :
  ∃ out h',
    rank_results [1%positive; 2%positive; 3%positive]
      MatchCriteria_default three_dogs = Some (Ret out, h') ∧
    Forall2 (λ l l', ∃ fields,
               three_dogs !! l = Some fields ∧ three_dogs !! l' = None ∧
               h' !! l' = Some (scored_copy fields zero_score))
      [1%positive; 2%positive; 3%positive] out.
Proof.
  apply (rank_results_no_criteria_keeps_order
           [1%positive; 2%positive; 3%positive] three_dogs).
  repeat constructor; eexists; reflexivity.
Defined.

End RankingOutcomes.

(* ===================================================================== *)
(** * Ranking what is already ranked                                      *)
(* ===================================================================== *)

Section Reranking.

Implicit Types (h : store) (c : MatchCriteria) (rows : list loc).
Implicit Types (l : loc) (fields : dict) (score : BreedScore).

(** What [rank_results] leaves behind each pair of its sorted list: a
    scored copy whose total is the key of the pair. *)
Lemma rank_results_ranked rows c h :
  Forall (scorable h c) rows →
  ∃ scored h',
    rank_results rows c h = Some (Ret (sort_desc scored).*2, h') ∧
    Forall (λ p, ∃ fields score,
              h' !! p.2 = Some (scored_copy fields score) ∧
              score_dog fields c = Ret score ∧ p.1 = total_score score)
      (sort_desc scored).
Proof.
  intros Hrows.
  destruct (rank_results_returns rows c h Hrows)
    as (scored & h' & Hrun & Hall & _).
  exists scored, h'. split; [done|].
  apply Forall_forall. intros p Hp. rewrite sort_desc_Permutation in Hp.
  apply list_elem_of_lookup in Hp as [i Hi].
  destruct (Forall2_lookup_r _ _ _ _ _ Hall Hi)
    as (l & _ & (fields & score & _ & Hs & _ & Hcopy) & Hms).
  exists fields, score. split; [done|]. split; [done|].
  rewrite (match_score_of_scored_copy _ _ _ _ Hcopy) in Hms.
  by injection Hms.
Qed.

(** Ranking a ranked list again changes nothing a caller can see: the
    second call returns new copies that hold, position by position, the
    very fields of the records it was given, scores included. *)
Theorem rank_results_twice rows c h :
  Forall (scorable h c) rows →
  ∃ out h1 out2 h2,
    rank_results rows c h = Some (Ret out, h1) ∧
    rank_results out c h1 = Some (Ret out2, h2) ∧
    Forall2 (λ l l2, is_Some (h1 !! l) ∧ h1 !! l2 = None ∧
                     h2 !! l2 = h1 !! l) out out2.
Proof.
  intros Hrows.
  destruct (rank_results_ranked rows c h Hrows)
    as (scored & h1 & Hrun & Hranked).
  set (ranked := sort_desc scored) in *.
  assert (Forall (scorable h1 c) ranked.*2) as Hrows2.
  { apply Forall_fmap. eapply Forall_impl; [exact Hranked|].
    intros p (fields & score & Hl & Hs & _).
    exists (scored_copy fields score), score. split; [done|].
    by rewrite score_dog_scored_copy. }
  destruct (rank_results_returns ranked.*2 c h1 Hrows2)
    as (scored2 & h2 & Hrun2 & Hall2 & _).
  assert (Forall2 (λ p p2, p.1 = p2.1 ∧ is_Some (h1 !! p.2) ∧
                           h1 !! p2.2 = None ∧ h2 !! p2.2 = h1 !! p.2)
            ranked scored2) as Hsame.
  { apply Forall2_fmap_l in Hall2.
    apply Forall2_same_length_lookup.
    apply Forall2_same_length_lookup in Hall2 as [Hlen Hall2].
    split; [done|]. intros i p p2 Hp Hp2.
    destruct (Hall2 i p p2 Hp Hp2)
      as [(f' & s' & Hl' & Hs' & Hnew & Hcopy) Hms].
    rewrite Forall_lookup in Hranked.
    destruct (Hranked i p Hp) as (fields & score & Hl & Hs & Hk).
    simpl in Hl'. rewrite Hl in Hl'. injection Hl' as <-.
    rewrite score_dog_scored_copy, Hs in Hs'. injection Hs' as <-.
    rewrite scored_copy_scored_copy in Hcopy.
    rewrite (match_score_of_scored_copy _ _ _ _ Hcopy) in Hms.
    injection Hms as Hms.
    split; [congruence|]. split; [by rewrite Hl|].
    split; [done|]. by rewrite Hcopy, Hl. }
  assert (ranked.*1 = scored2.*1) as Hkeys.
  { apply list_eq_Forall2, Forall2_fmap.
    eapply Forall2_impl; [exact Hsame|]. by intros ?? [? _]. }
  assert (StronglySorted desc scored2) as Hsorted.
  { apply StronglySorted_desc_keys. rewrite <- Hkeys.
    apply StronglySorted_desc_keys, sort_desc_sorted. }
  exists ranked.*2, h1, scored2.*2, h2.
  split; [done|]. split; [by apply rank_results_in_order|].
  apply Forall2_fmap. eapply Forall2_impl; [exact Hsame|].
  by intros p p2 (_ & ? & ? & ?).
Qed.

Lemma rank_results_twice_witness :
  ∃ out h1 out2 h2,
    rank_results [1%positive; 2%positive; 3%positive]
      MatchCriteria_default three_dogs = Some (Ret out, h1) ∧
    rank_results out MatchCriteria_default h1 = Some (Ret out2, h2) ∧
    Forall2 (λ l l2, is_Some (h1 !! l) ∧ h1 !! l2 = None ∧
                     h2 !! l2 = h1 !! l) out out2.
Proof.
  apply (rank_results_twice [1%positive; 2%positive; 3%positive]
           MatchCriteria_default three_dogs).
  repeat constructor.
  - exists (dog "Terrier"), zero_score. split; reflexivity.
  - exists (dog "Poodle"), zero_score. split; reflexivity.
  - exists (dog "Collie"), zero_score. split; reflexivity.
Defined.

(** The default ordering of [update_table],
    [sorted(ranked, key=lambda r: r.get("match_score", 0), reverse=True)],
    applied to what [rank_results] returned: every key is the [int]
    under ["match_score"], and sorting the records by these keys, stably
    and descending, gives the list back as it is. *)
Theorem default_order_changes_nothing rows c h :
  Forall (scorable h c) rows →
  ∃ ranked h' keys,
    rank_results rows c h = Some (Ret ranked, h') ∧
    Forall2 (λ l n, ∃ r, h' !! l = Some r ∧ match_score_key r = VInt n)
      ranked keys ∧
    (sort_desc (zip keys ranked)).*2 = ranked.
Proof.
  intros Hrows.
  destruct (rank_results_ranked rows c h Hrows)
    as (scored & h' & Hrun & Hranked).
  exists (sort_desc scored).*2, h', (sort_desc scored).*1.
  split; [done|]. split.
  - apply Forall2_fmap, Forall_Forall2_diag.
    eapply Forall_impl; [exact Hranked|].
    intros p (fields & score & Hl & _ & ->).
    exists (scored_copy fields score). split; [done|].
    unfold match_score_key. by rewrite scored_copy_lookup.
  - rewrite zip_fst_snd.
    by rewrite (sort_desc_sorted_id _ (sort_desc_sorted scored)).
Qed.

Lemma default_order_changes_nothing_witness :
  ∃ ranked h' keys,
    rank_results [1%positive; 2%positive; 3%positive]
      MatchCriteria_default three_dogs = Some (Ret ranked, h') ∧
    Forall2 (λ l n, ∃ r, h' !! l = Some r ∧ match_score_key r = VInt n)
      ranked keys ∧
    (sort_desc (zip keys ranked)).*2 = ranked.
Proof.
  apply (default_order_changes_nothing [1%positive; 2%positive; 3%positive]
           MatchCriteria_default three_dogs).
  repeat constructor.
  - exists (dog "Terrier"), zero_score. split; reflexivity.
  - exists (dog "Poodle"), zero_score. split; reflexivity.
  - exists (dog "Collie"), zero_score. split; reflexivity.
Defined.

End Reranking.

(* ===================================================================== *)
(** * Records that need no sanitising, and the scores of a ranking        *)
(* ===================================================================== *)

Section FixedPoints.

Implicit Types (r out : dict) (k : string).

#[local] Arguments float_of_int : simpl never.
#[local] Arguments parse_float : simpl never.

(** The records that [sanitize_record] returns unchanged are exactly
    those in the shape it produces: no ["_id"], the three required and
    the three optional fields present, and an age that is [None] or a
    [float]. *)
Theorem sanitize_record_fixed_points r :
  sanitize_record r = Ret r ↔
  r !! "_id" = None ∧
  (∀ k, k ∈ REQUIRED_FIELDS ++ OPTIONAL_FIELDS_WITH_DEFAULTS.*1 →
        is_Some (r !! k)) ∧
  (r !! "age_upon_outcome_in_weeks" = Some VNone ∨
   ∃ f, r !! "age_upon_outcome_in_weeks" = Some (VFloat f)).
Proof.
  split.
  - intros Hr. split; [|split].
    + rewrite (sanitize_record_lookup r r "_id" Hr) by done.
      by rewrite fill_defaults_lookup.
    + intros k Hk.
      destruct (decide (k = "age_upon_outcome_in_weeks"%string)) as [->|Hage].
      { destruct (sanitize_record_age_shape r r Hr) as [->|[f ->]]; eauto. }
      rewrite (sanitize_record_lookup r r k Hr Hage), fill_defaults_lookup.
      simpl in Hk. rewrite !elem_of_cons, elem_of_nil in Hk.
      destruct Hk as [->|[->|[->|[->|[->|[->|[]]]]]]]; simpl;
        destruct (r !! _); eauto.
    + by apply (sanitize_record_age_shape r).
  - intros (Hid & Hkeys & Hage).
    assert (∃ v, r !! "age_upon_outcome_in_weeks" = Some v ∧
                 coerce_age v = Ret v) as (v & Hv & Hc).
    { destruct Hage as [->|[f ->]]; eauto. }
    rewrite sanitize_record_unfold. unfold get at 1.
    rewrite fill_defaults_age. simpl. unfold get. rewrite Hv. simpl.
    rewrite Hc. f_equal. apply map_eq. intros k.
    destruct (decide (k = "age_upon_outcome_in_weeks"%string)) as [->|Hk].
    { by rewrite lookup_insert_eq. }
    rewrite lookup_insert_ne by done. rewrite fill_defaults_lookup.
    case_decide as Hkid; [by subst|].
    destruct (r !! k) as [x|] eqn:Hx; [done|].
    assert (k ∉ REQUIRED_FIELDS ++ OPTIONAL_FIELDS_WITH_DEFAULTS.*1) as Hnot.
    { intros Hin. apply Hkeys in Hin as [? ?]. congruence. }
    simpl in Hnot. rewrite !not_elem_of_cons in Hnot.
    destruct Hnot as (? & ? & ? & ? & ? & ? & _).
    rewrite decide_False
      by (unfold REQUIRED_FIELDS; rewrite !not_elem_of_cons;
          repeat split; [done..|apply not_elem_of_nil]).
    by rewrite !decide_False by done.
Qed.

End FixedPoints.

Section RankedScores.

Implicit Types (h : store) (c : MatchCriteria) (rows : list loc).
Implicit Types (l : loc) (fields : dict) (score : BreedScore).

(** The scores that [rank_results] attaches are consistent: it returns
    as many records as it was given, and in each of them the score
    breakdown holds a breed entry of 0 or 50, an age entry of 0 or 30
    and a sex entry of 0 or 20, and the match score is their sum. *)
Theorem rank_results_scores_consistent rows c h :
  Forall (scorable h c) rows →
  ∃ out h',
    rank_results rows c h = Some (Ret out, h') ∧
    length out = length rows ∧
    Forall (λ l, ∃ r b a x,
      h' !! l = Some r ∧
      r !! "score_breakdown" =
        Some (VDict (<["breed_match"%string := VInt b]>
                     (<["age_match"%string := VInt a]>
                      (<["sex_match"%string := VInt x]> ∅)))) ∧
      r !! "match_score" = Some (VInt (b + a + x)) ∧
      b ∈ [0; 50] ∧ a ∈ [0; 30] ∧ x ∈ [0; 20]) out.
Proof.
  intros Hrows.
  destruct (rank_results_returns rows c h Hrows)
    as (scored & h' & Hrun & Hall & _).
  exists (sort_desc scored).*2, h'. split; [done|]. split.
  - rewrite length_fmap, (Permutation_length (sort_desc_Permutation scored)).
    symmetry. by eapply Forall2_length.
  - apply Forall_fmap, Forall_forall. intros p Hp.
    rewrite sort_desc_Permutation in Hp.
    apply list_elem_of_lookup in Hp as [i Hi].
    destruct (Forall2_lookup_r _ _ _ _ _ Hall Hi)
      as (l & _ & (fields & score & _ & Hs & _ & Hcopy) & _).
    destruct (score_dog_components fields c score Hs)
      as (Hb & Ha & Hx & Htot).
    exists (scored_copy fields score), (breed_match score),
      (age_match score), (sex_match score).
    split; [done|]. rewrite !scored_copy_lookup. simpl.
    split; [done|]. split; [by rewrite Htot|].
    rewrite !elem_of_cons. tauto.
Qed.

Lemma rank_results_scores_consistent_witness :
  ∃ out h',
    rank_results [1%positive; 2%positive; 3%positive]
      MatchCriteria_default three_dogs = Some (Ret out, h') ∧
    length out = length [1%positive; 2%positive; 3%positive] ∧
    Forall (λ l, ∃ r b a x,
      h' !! l = Some r ∧
      r !! "score_breakdown" =
        Some (VDict (<["breed_match"%string := VInt b]>
                     (<["age_match"%string := VInt a]>
                      (<["sex_match"%string := VInt x]> ∅)))) ∧
      r !! "match_score" = Some (VInt (b + a + x)) ∧
      b ∈ [0; 50] ∧ a ∈ [0; 30] ∧ x ∈ [0; 20]) out.
Proof.
  apply (rank_results_scores_consistent [1%positive; 2%positive; 3%positive]
           MatchCriteria_default three_dogs).
  repeat constructor.
  - exists (dog "Terrier"), zero_score. split; reflexivity.
  - exists (dog "Poodle"), zero_score. split; reflexivity.
  - exists (dog "Collie"), zero_score. split; reflexivity.
Defined.

End RankedScores.
